(** * htb-network-discovery: crawl engine, MAC normalisation and VLAN parsing

    A shallow embedding of the parts of the discovery tool that decide its
    crawl invariants and its parsing guarantees:

    - [src/core/discovery/engine.py]: [DiscoveryEngine.__init__],
      [start_discovery], [_process_discovery_queue],
      [_wait_for_completion], [_discover_device] and
      [_process_discovered_device];
    - [src/utils/validators.py]: [normalize_mac];
    - [src/core/discovery/parsers.py]: [_parse_vlan_list],
      [parse_interfaces_trunk] and [parse_vlans].

    Python [int] is [Z].  A Python [str] is a [string] whose characters are
    read as the code points 0..255; the character classes below ([\s], [\d],
    [str.lower], [str.strip]) are the ones CPython uses on that range.  *)

From Stdlib Require Import ZArith Ascii String.
From stdpp Require Import gmap strings list sorting.

Open Scope Z_scope.

(** ** Python strings *)

Module Text.

(** A [string] and its list of characters. *)
Abbreviation chars := list_ascii_of_string.
Abbreviation text := string_of_list_ascii.

(** The code point of a character. *)
Definition code (c : ascii) : N := N_of_ascii c.

Definition in_range (lo hi : N) (c : ascii) : bool :=
  ((lo <=? code c) && (code c <=? hi))%N.

(** [str.isspace] on one character, which is also the class [\s] of
    [re] on [str] patterns and the set removed by [str.strip()]: TAB, LF,
    VT, FF, CR, the separators FS, GS, RS and US, the space, NEL and the
    no-break space. *)
Definition isspace (c : ascii) : bool :=
  in_range 9 13 c || in_range 28 32 c
  || (code c =? 133)%N || (code c =? 160)%N.

(** The class [\d] of [re], and the decimal digits of [int]: below code
    point 256 these are the ten ASCII digits. *)
Definition isdigit (c : ascii) : bool := in_range 48 57 c.

(** [str.lower] on one character: the ASCII capitals and the Latin-1
    capitals (U+00C0..U+00DE without the multiplication sign) move up by
    32; everything else is left alone. *)
Definition lower_char (c : ascii) : ascii :=
  if in_range 65 90 c || (in_range 192 222 c && negb (code c =? 215)%N)
  then ascii_of_N (code c + 32)
  else c.

Definition lower (s : list ascii) : list ascii := lower_char <$> s.

Definition str_lower (s : string) : string := text (lower (chars s)).

(** [str.lstrip()], [str.rstrip()] and [str.strip()]. *)
Fixpoint lstrip (s : list ascii) : list ascii :=
  match s with
  | c :: s' => if isspace c then lstrip s' else s
  | [] => []
  end.

Definition rstrip (s : list ascii) : list ascii := reverse (lstrip (reverse s)).

Definition strip (s : list ascii) : list ascii := rstrip (lstrip s).

(** [s.split(sep)] for a one-character separator: always at least one
    piece, empty pieces kept. *)
Fixpoint split (sep : ascii) (s : list ascii) : list (list ascii) :=
  match s with
  | [] => [[]]
  | c :: s' =>
      if bool_decide (c = sep) then [] :: split sep s'
      else match split sep s' with
           | piece :: pieces => (c :: piece) :: pieces
           | [] => [[c]]
           end
  end.

(** [sep.join(pieces)]. *)
Fixpoint join (sep : list ascii) (pieces : list (list ascii)) : list ascii :=
  match pieces with
  | [] => []
  | [piece] => piece
  | piece :: pieces' => piece ++ sep ++ join sep pieces'
  end.

(** The slice [s[i:j]] for [0 <= i <= j]. *)
Definition slice (i j : nat) (s : list ascii) : list ascii :=
  take (j - i) (drop i s).

(** [needle in s]: substring test. *)
Fixpoint contains (needle s : list ascii) : bool :=
  bool_decide (needle `prefix_of` s)
  || match s with
     | [] => false
     | _ :: s' => contains needle s'
     end.

(** *** [int(str)] *)

Definition digit_value (c : ascii) : Z := Z.of_N (code c) - 48.

(** The digits after the first one: single underscores may separate digits,
    and the literal may not end in one. *)
Fixpoint int_digits (acc : Z) (after_underscore : bool) (s : list ascii)
    : option Z :=
  match s with
  | [] => if after_underscore then None else Some acc
  | c :: s' =>
      if isdigit c then int_digits (10 * acc + digit_value c) false s'
      else if bool_decide (c = "_"%char) then
        if after_underscore then None else int_digits acc true s'
      else None
  end.

(** An unsigned decimal literal: it starts with a digit. *)
Definition int_unsigned (s : list ascii) : option Z :=
  match s with
  | c :: s' => if isdigit c then int_digits (digit_value c) false s' else None
  | [] => None
  end.

(** The whitespace [int] skips around the literal. *)
Definition int_space (c : ascii) : bool :=
  in_range 9 13 c || (code c =? 32)%N || (code c =? 133)%N || (code c =? 160)%N.

Fixpoint skip_int_space (s : list ascii) : list ascii :=
  match s with
  | c :: s' => if int_space c then skip_int_space s' else s
  | [] => []
  end.

(** [int(s)] in base 10: optional surrounding whitespace, an optional sign,
    then the literal.  [None] stands for [ValueError].  (A literal longer
    than the interpreter's digit limit, 4300 by default since Python 3.11,
    is refused with the same exception; the limit is a run-time setting and
    is left out.) *)
Definition int (s : list ascii) : option Z :=
  let s := reverse (skip_int_space (reverse (skip_int_space s))) in
  match s with
  | "+"%char :: s' => int_unsigned s'
  | "-"%char :: s' => Z.opp <$> int_unsigned s'
  | _ => int_unsigned s
  end.

(** [sorted(set(l))] on integers: the elements of the set, in increasing
    order. *)
Definition sorted_set (l : list Z) : list Z :=
  merge_sort Z.le (elements (list_to_set l : gset Z)).

End Text.

(** ** The regular expressions the parsers use

    A backtracking matcher in the manner of [re]: alternatives are tried
    left to right, a greedy repetition tries the longest run first and a
    lazy one the shortest, and the first way through the whole pattern
    wins.  Repetition is over one-character classes, which is all the
    patterns below need. *)

Module Regex.
Import Text.

Inductive regex :=
| Chr (c : ascii)                              (* a literal character *)
| Cls (p : ascii → bool)                       (* a character class *)
| Rep (greedy : bool) (lo : nat) (p : ascii → bool)
                                               (* [p{lo,}] or [p{lo,}?] *)
| Seq (r1 r2 : regex)
| Alt (r1 r2 : regex)
| Grp (n : nat) (r : regex)                    (* capturing group [n] *)
| Bol                                          (* [^] *)
| Eol                                          (* [$] *)
| EndZ                                         (* [\Z] *)
| Eps.

(** The flags of [re.compile]: they change what a literal, [^] and [$]
    accept.  ([re.DOTALL] changes [.], which is written as a class.) *)
Record flags := mkFlags {
  ignorecase : bool;
  multiline : bool
}.

(** Captured groups, most recent first. *)
Abbreviation groups := (list (nat * list ascii)).

(** [match.group(n)]; [None] when the group took no part in the match. *)
Fixpoint group (n : nat) (g : groups) : option (list ascii) :=
  match g with
  | [] => None
  | (m, w) :: g' => if decide (m = n) then Some w else group n g'
  end.

(** A successful match: the groups, the character before the end position
    and the text after it. *)
Abbreviation found := (groups * option ascii * list ascii)%type.

(** A continuation receives the character before the current position, the
    remaining text and the groups so far. *)
Abbreviation cont := (option ascii → list ascii → groups → option found).

Definition chr_matches (f : flags) (pat c : ascii) : bool :=
  if ignorecase f then bool_decide (lower_char c = lower_char pat)
  else bool_decide (c = pat).

Fixpoint rep_greedy (p : ascii → bool) (lo : nat) (k : cont)
    (prev : option ascii) (s : list ascii) (g : groups) : option found :=
  let stop := match lo with O => k prev s g | S _ => None end in
  match s with
  | c :: s' =>
      if p c then
        match rep_greedy p (pred lo) k (Some c) s' g with
        | Some r => Some r
        | None => stop
        end
      else stop
  | [] => stop
  end.

Fixpoint rep_lazy (p : ascii → bool) (lo : nat) (k : cont)
    (prev : option ascii) (s : list ascii) (g : groups) : option found :=
  let more :=
    match s with
    | c :: s' => if p c then rep_lazy p (pred lo) k (Some c) s' g else None
    | [] => None
    end in
  match lo with
  | O => match k prev s g with
         | Some r => Some r
         | None => more
         end
  | S _ => more
  end.

Definition at_bol (f : flags) (prev : option ascii) : bool :=
  match prev with
  | None => true
  | Some c => multiline f && bool_decide (c = "010"%char)
  end.

Definition at_eol (f : flags) (s : list ascii) : bool :=
  match s with
  | [] => true
  | c :: s' =>
      bool_decide (c = "010"%char)
      && (multiline f || bool_decide (s' = []))
  end.

(** [exec f r k prev s g]: match [r] at the current position, then go on
    with [k]; [None] when no way through exists. *)
Fixpoint exec (f : flags) (r : regex) (k : cont) : cont :=
  λ prev s g,
  match r with
  | Chr pat =>
      match s with
      | c :: s' => if chr_matches f pat c then k (Some c) s' g else None
      | [] => None
      end
  | Cls p =>
      match s with
      | c :: s' => if p c then k (Some c) s' g else None
      | [] => None
      end
  | Rep true lo p => rep_greedy p lo k prev s g
  | Rep false lo p => rep_lazy p lo k prev s g
  | Seq r1 r2 => exec f r1 (exec f r2 k) prev s g
  | Alt r1 r2 =>
      match exec f r1 k prev s g with
      | Some r => Some r
      | None => exec f r2 k prev s g
      end
  | Grp n r' =>
      exec f r' (λ prev' s' g',
        k prev' s' ((n, take (length s - length s') s) :: g')) prev s g
  | Bol => if at_bol f prev then k prev s g else None
  | Eol => if at_eol f s then k prev s g else None
  | EndZ => match s with [] => k prev s g | _ => None end
  | Eps => k prev s g
  end.

(** The numbers of the groups a pattern can fill. *)
Fixpoint group_names (r : regex) : list nat :=
  match r with
  | Seq r1 r2 | Alt r1 r2 => group_names r1 ++ group_names r2
  | Grp n r' => n :: group_names r'
  | _ => []
  end.

Definition accept : cont := λ prev s g, Some (g, prev, s).

(** [pattern.match] at a position. *)
Definition match_at (f : flags) (r : regex) (prev : option ascii)
    (s : list ascii) : option found :=
  exec f r accept prev s [].

(** [re.match(pattern, s)]. *)
Definition re_match (f : flags) (r : regex) (s : list ascii) : option found :=
  match_at f r None s.

(** [re.search]: the first position, from the left, with a match. *)
Fixpoint search_from (f : flags) (r : regex) (prev : option ascii)
    (s : list ascii) : option found :=
  match match_at f r prev s with
  | Some m => Some m
  | None =>
      match s with
      | c :: s' => search_from f r (Some c) s'
      | [] => None
      end
  end.

Definition search (f : flags) (r : regex) (s : list ascii) : option found :=
  search_from f r None s.

(** [pattern.finditer]: the matches from left to right, each search
    starting where the previous match ended ([skip] counts the characters
    of the last match still to be walked over). *)
Fixpoint finditer_from (f : flags) (r : regex) (skip : nat)
    (prev : option ascii) (s : list ascii) : list groups :=
  match skip with
  | S skip' =>
      match s with
      | c :: s' => finditer_from f r skip' (Some c) s'
      | [] => []
      end
  | O =>
      match match_at f r prev s with
      | Some (g, _, rest) =>
          g :: match s with
               | c :: s' =>
                   finditer_from f r (pred (length s - length rest)) (Some c) s'
               | [] => []
               end
      | None =>
          match s with
          | c :: s' => finditer_from f r O (Some c) s'
          | [] => []
          end
      end
  end.

Definition finditer (f : flags) (r : regex) (s : list ascii) : list groups :=
  finditer_from f r O None s.

(** A literal word. *)
Fixpoint lit (w : list ascii) : regex :=
  match w with
  | [] => Eps
  | [c] => Chr c
  | c :: w' => Seq (Chr c) (lit w')
  end.

Fixpoint seq (rs : list regex) : regex :=
  match rs with
  | [] => Eps
  | [r] => r
  | r :: rs' => Seq r (seq rs')
  end.

Fixpoint alt (rs : list regex) : regex :=
  match rs with
  | [] => Eps
  | [r] => r
  | r :: rs' => Alt r (alt rs')
  end.

(** [\s], [\S], [\d], and [.] with and without [re.DOTALL]. *)
Definition space : ascii → bool := isspace.
Definition nonspace : ascii → bool := λ c, negb (isspace c).
Definition digit : ascii → bool := isdigit.
Definition dot : ascii → bool := λ c, negb (bool_decide (c = "010"%char)).
Definition dot_all : ascii → bool := λ _, true.

End Regex.

(** ** [utils/validators.py] *)

Module Validators.
Import Text.

(** What a call does: return a value or raise [ValueError] with a
    message. *)
Inductive result (A : Type) :=
| Ok (value : A)
| ValueError (message : string).
Arguments Ok {A} value.
Arguments ValueError {A} message.

(** The class [[.:\-\s]]. *)
Definition is_separator (c : ascii) : bool :=
  bool_decide (c ∈ chars ".:-") || isspace c.

(** [c in "0123456789abcdef"]. *)
Definition is_hex (c : ascii) : bool :=
  bool_decide (c ∈ chars "0123456789abcdef").

(** [re.sub(r"[.:\-\s]", "", s)]: every separator is deleted. *)
Definition remove_separators (s : list ascii) : list ascii :=
  List.filter (λ c, negb (is_separator c)) s.

Definition normalize_mac (mac_address : string) : result string :=
  let mac := remove_separators (lower (chars mac_address)) in
  if bool_decide (length mac ≠ 12%nat) then
    ValueError ("Invalid MAC address length: " ++ mac_address)
  else if negb (forallb is_hex mac) then
    ValueError ("Invalid MAC address characters: " ++ mac_address)
  else
    Ok (text (join (chars ":")
                ((λ i, slice i (i + 2) mac) <$> [0; 2; 4; 6; 8; 10]%nat))).

(** The pieces [s[0:n]], [s[n:2n]], ... of a twelve-character text. *)
Definition pieces (n : nat) (s : list ascii) : list (list ascii) :=
  (λ i, slice (i * n) (i * n + n) s) <$> seq 0 (12 / n).

(** The four written forms of twelve digits: [XX:XX:XX:XX:XX:XX],
    [XX-XX-XX-XX-XX-XX], [xxxx.xxxx.xxxx] and unseparated. *)
Definition written_forms (digits : list ascii) : list (list ascii) :=
  [join (chars ":") (pieces 2 digits);
   join (chars "-") (pieces 2 digits);
   join (chars ".") (pieces 4 digits);
   digits].

(** The canonical form [^[0-9a-f]{2}(:[0-9a-f]{2}){5}$], with the counted
    repetitions written out. *)
Definition canonical_mac_pattern : Regex.regex :=
  let hex2 := Regex.Seq (Regex.Cls is_hex) (Regex.Cls is_hex) in
  let colon_hex2 := Regex.Seq (Regex.Chr ":") hex2 in
  Regex.seq [Regex.Bol; hex2; colon_hex2; colon_hex2; colon_hex2; colon_hex2;
             colon_hex2; Regex.Eol].

Definition matches_canonical_form (mac : string) : Prop :=
  is_Some (Regex.re_match (Regex.mkFlags false false) canonical_mac_pattern
             (chars mac)).

End Validators.

(** ** [core/discovery/parsers.py] *)

Module Parsers.
Import Text.

(** Two facts about the interpreter that runs the parser: [maxsize] is
    [sys.maxsize], the largest length [len] can report, and [room] is the
    number of items its memory lets one list hold (in CPython never more
    than [sys.maxsize / 8]). *)
Record Limits := mkLimits {
  maxsize : N;
  room : N
}.

(** The exceptions a list raises when it is asked to grow too far; no
    [except] clause of the parsers names them. *)
Inductive growth_error :=
| OverflowError
| MemoryError.

(** What a call does: return a value, or let one of these exceptions
    escape. *)
Inductive attempt (A : Type) :=
| Returns (value : A)
| Raises (error : growth_error).
Arguments Returns {A} value.
Arguments Raises {A} error.

Definition and_then {A B} (o : attempt A) (f : A → attempt B) : attempt B :=
  match o with
  | Returns a => f a
  | Raises e => Raises e
  end.

(** What a fragment asks of the list [vlans]: nothing, [vlans.append(vlan)],
    or [vlans.extend(range(start, stop))]. *)
Inductive addition :=
| Nothing
| Append (vlan : Z)
| Extend (start stop : Z).

(** One turn of the [for part in parts] loop of [_parse_vlan_list], up to
    the call on the list.  A failed [int], or a split that does not give
    exactly two pieces, raises [ValueError] inside the [try], and the
    fragment asks for nothing. *)
Definition parse_part (part : list ascii) : addition :=
  let part := strip part in
  if bool_decide ("-"%char ∈ part) then
    match split "-" part with
    | [start; end_] =>
        match int (strip start), int (strip end_) with
        | Some start, Some end_ => Extend start (end_ + 1)
        | _, _ => Nothing
        end
    | _ => Nothing
    end
  else
    match int part with
    | Some vlan => Append vlan
    | None => Nothing
    end.

(** [len(range(start, stop))]. *)
Definition range_length (start stop : Z) : Z := Z.max 0 (stop - start).

(** The call on the list.  [extend] first asks the range for its length,
    which raises [OverflowError] beyond [sys.maxsize]; a list that cannot
    be made long enough raises [MemoryError].  Neither is a [ValueError] or
    an [AttributeError], so the exception leaves the function. *)
Definition grow (limits : Limits) (vlans : list Z) (a : addition)
    : attempt (list Z) :=
  match a with
  | Nothing => Returns vlans
  | Append vlan =>
      if bool_decide (Z.of_nat (length vlans) + 1 ≤ Z.of_N (room limits))
      then Returns (vlans ++ [vlan])
      else Raises MemoryError
  | Extend start stop =>
      if bool_decide (Z.of_N (maxsize limits) < range_length start stop)
      then Raises OverflowError
      else if bool_decide (Z.of_nat (length vlans) + range_length start stop
                           ≤ Z.of_N (room limits))
      then Returns (vlans ++ seqZ start (range_length start stop))
      else Raises MemoryError
  end.



(** The list [vlans] after the loop, unless an exception ends it. *)
Definition collect_parts (limits : Limits) (parts : list (list ascii))
    : attempt (list Z) :=
  foldl (λ vlans part, and_then vlans (λ l, grow limits l (parse_part part)))
    (Returns []) parts.

Definition _parse_vlan_list (limits : Limits) (vlan_str : string)
    : attempt (list Z) :=
  and_then (collect_parts limits (split "," (chars vlan_str)))
    (λ vlans, Returns (sorted_set vlans)).

(** The ids a fragment asks for, and those all fragments ask for. *)
Definition ids_of (a : addition) : list Z :=
  match a with
  | Nothing => []
  | Append vlan => [vlan]
  | Extend start stop => seqZ start (range_length start stop)
  end.

Definition requested (parts : list (list ascii)) : list Z :=
  parts ≫= λ part, ids_of (parse_part part).

(** The fragments ask for no range longer than [sys.maxsize] and, all
    together, for no more ids than a list has room for. *)
Definition fits (limits : Limits) (parts : list (list ascii)) : Prop :=
  Z.of_nat (length (requested parts)) ≤ Z.of_N (room limits)
  ∧ ∀ part start stop,
      part ∈ parts → parse_part part = Extend start stop →
      range_length start stop ≤ Z.of_N (maxsize limits).

(** A 64-bit CPython. *)
Definition cpython64 : Limits :=
  {| maxsize := 9223372036854775807; room := 1152921504606846975 |}.

(** [Port\s+Vlans allowed on trunk\s*\n(.+?)(?:\n\n|\Z)], compiled with
    [re.DOTALL | re.IGNORECASE]. *)
Definition allowed_section_pattern : Regex.regex :=
  Regex.seq
    [Regex.lit (chars "Port"); Regex.Rep true 1 Regex.space;
     Regex.lit (chars "Vlans allowed on trunk"); Regex.Rep true 0 Regex.space;
     Regex.Chr "010";
     Regex.Grp 1 (Regex.Rep false 1 Regex.dot_all);
     Regex.Alt (Regex.Seq (Regex.Chr "010") (Regex.Chr "010")) Regex.EndZ].

(** [^(\S+)\s+(.+)$], without flags. *)
Definition trunk_line_pattern : Regex.regex :=
  Regex.seq
    [Regex.Bol; Regex.Grp 1 (Regex.Rep true 1 Regex.nonspace);
     Regex.Rep true 1 Regex.space;
     Regex.Grp 2 (Regex.Rep true 1 Regex.dot); Regex.Eol].

(** The body of the loop over the lines of the allowed section. *)
Definition parse_trunk_line (limits : Limits)
    (trunk_vlans : gmap string (list Z)) (line : list ascii)
    : attempt (gmap string (list Z)) :=
  match Regex.re_match (Regex.mkFlags false false) trunk_line_pattern
          (strip line) with
  | Some (g, _, _) =>
      match Regex.group 1 g, Regex.group 2 g with
      | Some interface, Some vlans_str =>
          and_then (_parse_vlan_list limits (text (strip vlans_str)))
            (λ vlans, Returns (<[text interface := vlans]> trunk_vlans))
      | _, _ => Returns trunk_vlans
      end
  | None => Returns trunk_vlans
  end.

Definition parse_interfaces_trunk (limits : Limits) (output : string)
    : attempt (gmap string (list Z)) :=
  match Regex.search (Regex.mkFlags true false) allowed_section_pattern
          (chars output) with
  | Some (g, _, _) =>
      match Regex.group 1 g with
      | Some section =>
          foldl (λ trunk_vlans line,
                   and_then trunk_vlans (λ m, parse_trunk_line limits m line))
            (Returns ∅) (split "010" section)
      | None => Returns ∅
      end
  | None => Returns ∅
  end.

(** A dictionary built by [parse_vlans]. *)
Record Vlan := mkVlan {
  vlan_id : Z;
  name : string;
  status : string
}.

(** [^(\d+)\s+(\S+)\s+(active|suspended|act/lshut|sus/lshut)], compiled
    with [re.MULTILINE | re.IGNORECASE]. *)
Definition vlan_pattern : Regex.regex :=
  Regex.seq
    [Regex.Bol; Regex.Grp 1 (Regex.Rep true 1 Regex.digit);
     Regex.Rep true 1 Regex.space;
     Regex.Grp 2 (Regex.Rep true 1 Regex.nonspace);
     Regex.Rep true 1 Regex.space;
     Regex.Grp 3
       (Regex.alt
          [Regex.lit (chars "active"); Regex.lit (chars "suspended");
           Regex.lit (chars "act/lshut"); Regex.lit (chars "sus/lshut")])].

(** The body of the loop over the matches; [None] when [int] raises. *)
Definition vlan_of_match (g : Regex.groups) : option Vlan :=
  id_text ← Regex.group 1 g;
  name_text ← Regex.group 2 g;
  status_text ← Regex.group 3 g;
  vlan_id ← int id_text;
  let status := lower status_text in
  Some {| vlan_id := vlan_id;
          name := text name_text;
          status := if contains (chars "active") status
                    then "active" else "suspended" |}.

(** [parse_vlans]; [None] when an exception leaves the loop. *)
Definition parse_vlans (output : string) : option (list Vlan) :=
  mapM vlan_of_match
    (Regex.finditer (Regex.mkFlags true true) vlan_pattern (chars output)).

End Parsers.

(** ** [utils/validators.py]: addresses and interface names *)

Module AddressValidators.
Import Text.

(** [\d{1,3}]: one digit, then greedily up to two more. *)
Definition digits_1_3 : Regex.regex :=
  Regex.Seq (Regex.Cls Regex.digit)
    (Regex.Alt
       (Regex.Seq (Regex.Cls Regex.digit)
          (Regex.Alt (Regex.Cls Regex.digit) Regex.Eps))
       Regex.Eps).

(** [^(\d{1,3}\.){3}\d{1,3}$], the counted group written out. *)
Definition ip_pattern : Regex.regex :=
  let octet_dot := Regex.Grp 1 (Regex.Seq digits_1_3 (Regex.Chr ".")) in
  Regex.seq [Regex.Bol; octet_dot; octet_dot; octet_dot; digits_1_3; Regex.Eol].

(** [all(0 <= int(octet) <= 255 for octet in octets)]: the generator is
    consumed until the first octet out of range; [None] when [int]
    raises. *)
Fixpoint all_octets (octets : list (list ascii)) : option bool :=
  match octets with
  | [] => Some true
  | octet :: octets' =>
      match int octet with
      | None => None
      | Some v =>
          if bool_decide (0 ≤ v ≤ 255) then all_octets octets' else Some false
      end
  end.

(** [validate_ip]; [None] stands for an exception. *)
Definition validate_ip (ip_address : string) : option bool :=
  match Regex.re_match (Regex.mkFlags false false) ip_pattern
          (chars ip_address) with
  | None => Some false
  | Some _ => all_octets (split "." (chars ip_address))
  end.

(** The text of one octet as [validate_ip] accepts it: one to three
    digits that denote at most 255. *)
Definition octet_text (w : list ascii) : Prop :=
  (1 ≤ length w ≤ 3)%nat
  ∧ Forall (λ c, isdigit c = true) w
  ∧ ∃ v, int w = Some v ∧ v ≤ 255.

Definition dotted (a b c d : list ascii) : list ascii :=
  a ++ "."%char :: b ++ "."%char :: c ++ "."%char :: d.

End AddressValidators.

Module InterfaceNames.
Import Text.

(** [[A-Za-z]] and [[A-Za-z\-]]. *)
Definition letter (c : ascii) : bool := in_range 65 90 c || in_range 97 122 c.
Definition letter_or_hyphen (c : ascii) : bool :=
  letter c || bool_decide (c = "-"%char).

(** The named groups, by number: 1 [type], 2 [module], 3 [slot], 4 [port],
    5 [number]. *)
Definition group_name (n : nat) : string :=
  match n with
  | 1 => "type" | 2 => "module" | 3 => "slot" | 4 => "port" | _ => "number"
  end%nat%string.

(** The three patterns of [parse_interface_name], in the order tried. *)
Definition patterns : list Regex.regex :=
  [Regex.seq [Regex.Bol; Regex.Grp 1 (Regex.Rep true 1 letter);
              Regex.Grp 2 (Regex.Rep true 1 Regex.digit); Regex.Chr "/";
              Regex.Grp 3 (Regex.Rep true 1 Regex.digit); Regex.Chr "/";
              Regex.Grp 4 (Regex.Rep true 1 Regex.digit); Regex.Eol];
   Regex.seq [Regex.Bol; Regex.Grp 1 (Regex.Rep true 1 letter);
              Regex.Grp 2 (Regex.Rep true 1 Regex.digit); Regex.Chr "/";
              Regex.Grp 4 (Regex.Rep true 1 Regex.digit); Regex.Eol];
   Regex.seq [Regex.Bol; Regex.Grp 1 (Regex.Rep true 1 letter_or_hyphen);
              Regex.Grp 5 (Regex.Rep true 1 Regex.digit); Regex.Eol]].

(** [match.groupdict()]. *)
Definition groupdict (g : Regex.groups) : gmap string string :=
  list_to_map ((λ e : nat * list ascii, (group_name e.1, text e.2)) <$> g).

(** [parse_interface_name]: the dictionary of the first pattern that
    matches, [None] when none does. *)
Fixpoint first_match (pats : list Regex.regex) (s : list ascii)
    : option (gmap string string) :=
  match pats with
  | [] => None
  | pat :: pats' =>
      match Regex.re_match (Regex.mkFlags false false) pat s with
      | Some (g, _, _) => Some (groupdict g)
      | None => first_match pats' s
      end
  end.

Definition parse_interface_name (interface : string)
    : option (gmap string string) :=
  first_match patterns (chars interface).

(** [s.startswith(prefix)]. *)
Definition startswith (prefix s : list ascii) : bool :=
  bool_decide (prefix `prefix_of` s).

(** [s.replace(old, new, count)] for a non-empty [old]: the occurrences
    are found from the left and do not overlap; [skip] counts the
    characters of the occurrence just replaced that are still to be passed,
    [count] the replacements still allowed ([None]: no limit).  For an
    empty [old] Python puts [new] in every gap instead. *)
Fixpoint replace_from (old new : list ascii) (count : option nat)
    (skip : nat) (s : list ascii) : list ascii :=
  match s with
  | [] => []
  | c :: s' =>
      match skip with
      | S skip' => replace_from old new count skip' s'
      | O =>
          if bool_decide (count ≠ Some O) && startswith old s then
            new ++ replace_from old new (pred <$> count) (pred (length old)) s'
          else c :: replace_from old new count O s'
      end
  end.

Fixpoint fill_gaps (new : list ascii) (count : option nat) (s : list ascii)
    : list ascii :=
  if bool_decide (count = Some O) then s
  else match s with
       | [] => new
       | c :: s' => new ++ c :: fill_gaps new (pred <$> count) s'
       end.

Definition replace (old new : list ascii) (count : option nat)
    (s : list ascii) : list ascii :=
  match old with
  | [] => fill_gaps new count s
  | _ => replace_from old new count O s
  end.

(** The dictionary of [abbreviate_interface], in insertion order. *)
Definition abbreviations : list (string * string) :=
  [("GigabitEthernet", "Gi"); ("TenGigabitEthernet", "Te");
   ("FastEthernet", "Fa"); ("Ethernet", "Et");
   ("Port-channel", "Po"); ("Vlan", "Vl")]%string.

(** The dictionary of [expand_interface], in insertion order. *)
Definition expansions : list (string * string) :=
  [("Gi", "GigabitEthernet"); ("Te", "TenGigabitEthernet");
   ("Fa", "FastEthernet"); ("Et", "Ethernet");
   ("Po", "Port-channel"); ("Vl", "Vlan")]%string.

(** The loop shared by both functions: the first key that starts the name
    decides; [count] is the third argument of [replace]. *)
Fixpoint rewrite_name (table : list (string * string)) (count : option nat)
    (interface : list ascii) : list ascii :=
  match table with
  | [] => interface
  | (key, value) :: table' =>
      if startswith (chars key) interface
      then replace (chars key) (chars value) count interface
      else rewrite_name table' count interface
  end.

Definition abbreviate_interface (interface : string) : string :=
  text (rewrite_name abbreviations None (chars interface)).

Definition expand_interface (interface : string) : string :=
  text (rewrite_name expansions (Some 1%nat) (chars interface)).

End InterfaceNames.

(** ** The crawl engine *)

Module Engine.

(** [utils.config.DeviceConfig]; the credential fields keep their defaults
    on every configuration the engine builds and are not read by the crawl. *)
Record DeviceConfig := mkDeviceConfig {
  hostname : string;
  ip : string;
  device_type : string
}.

(** The value stored under ["capabilities"] in a neighbour dictionary:
    the key may be missing, may hold [None] ([NeighborInfo.to_dict] writes
    the [Optional] field as it is) or may hold a list of words. *)
Inductive caps_field :=
| CapsAbsent
| CapsNone
| CapsList (words : list string).

(** A neighbour dictionary, restricted to the keys the crawl reads with
    [neighbor.get]. *)
Record Neighbor := mkNeighbor {
  remote_device : option string;
  remote_ip : option string;
  capabilities : caps_field
}.

(** [core.models.device.DeviceInfo], restricted to the fields the crawl
    reads. *)
Record DeviceInfo := mkDeviceInfo {
  info_hostname : string;
  neighbors : list Neighbor
}.

(** An entry of [discovery_queue]: [(device_config, depth)]. *)
Abbreviation item := (DeviceConfig * Z)%type.

(** The attributes fixed by [__init__]: [self.max_depth],
    [self.max_workers] and [self.config.seed_devices]. *)
Record Settings := mkSettings {
  max_depth : Z;
  max_workers : Z;
  seed_devices : list DeviceConfig
}.

(** The mutable attributes of the engine, the local [futures] of
    [_process_discovery_queue], and two histories kept for the statements
    below: [enqueued] records every [discovery_queue.put], [submitted]
    every [executor.submit], both in program order. *)
Record State := mkState {
  discovered_devices : gset string;
  discovery_queue : list item;
  device_data : gmap string DeviceInfo;
  errors : list (string * string);
  futures : list item;
  enqueued : list item;
  submitted : list item
}.

(** Python's [a or b] on an optional integer: [None] and [0] are falsy. *)
Definition int_or (a : option Z) (b : Z) : Z :=
  match a with
  | Some n => if decide (n = 0) then b else n
  | None => b
  end.

(** [__init__]: the constructor arguments override the configuration file
    ([cfg_max_depth] is [discovery_options.max_depth], [cfg_max_workers] is
    [parallel.max_workers]; both are plain [int] fields). *)
Definition init (seeds : list DeviceConfig) (cfg_max_depth cfg_max_workers : Z)
    (arg_max_depth arg_max_workers : option Z) : Settings :=
  {| max_depth := int_or arg_max_depth cfg_max_depth;
     max_workers := int_or arg_max_workers cfg_max_workers;
     seed_devices := seeds |}.

Definition seed_items (self : Settings) : list item :=
  (λ seed_device, (seed_device, 0)) <$> seed_devices self.

(** [start_discovery] up to the call of [_process_discovery_queue]: every
    seed is put on the queue at depth 0. *)
Definition start_discovery (self : Settings) : State :=
  {| discovered_devices := ∅;
     discovery_queue := seed_items self;
     device_data := ∅;
     errors := [];
     futures := [];
     enqueued := seed_items self;
     submitted := [] |}.

(** The inner [while] of [_process_discovery_queue]: take items off the
    queue while a worker slot is free; skip a hostname already discovered,
    skip an item at or beyond [max_depth], otherwise mark the hostname and
    submit the task. *)
Fixpoint submit_loop (self : Settings) (queue : list item)
    (discovered : gset string) (futs subm : list item)
    : list item * gset string * list item * list item :=
  match queue with
  | [] => (queue, discovered, futs, subm)
  | (device_config, depth) :: queue' =>
      if bool_decide (Z.of_nat (length futs) < max_workers self) then
        if bool_decide (hostname device_config ∈ discovered) then
          submit_loop self queue' discovered futs subm
        else if bool_decide (max_depth self ≤ depth) then
          submit_loop self queue' discovered futs subm
        else
          submit_loop self queue' ({[hostname device_config]} ∪ discovered)
            (futs ++ [(device_config, depth)])
            (subm ++ [(device_config, depth)])
      else (queue, discovered, futs, subm)
  end.

Definition submit_tasks (self : Settings) (st : State) : State :=
  let '(queue, discovered, futs, subm) :=
    submit_loop self (discovery_queue st) (discovered_devices st)
      (futures st) (submitted st) in
  {| discovered_devices := discovered;
     discovery_queue := queue;
     device_data := device_data st;
     errors := errors st;
     futures := futs;
     enqueued := enqueued st;
     submitted := subm |}.

(** [any(cap in ["Switch", "Router", "switch", "router"] for cap in
    capabilities)]. *)
Definition is_switch_or_router (caps : list string) : bool :=
  existsb (λ cap, bool_decide (cap ∈ ["Switch"; "Router"; "switch"; "router"]%string))
    caps.

(** [a or b] on an optional string: [None] and the empty string are falsy. *)
Definition str_or (a : option string) (b : string) : string :=
  match a with
  | Some s => if decide (s = ""%string) then b else s
  | None => b
  end.

(** The [for neighbor in device_info.neighbors] loop of
    [_process_discovered_device].  Iterating over a [None] capabilities
    value raises [TypeError] and indexing an empty seed list raises
    [IndexError]; either leaves the loop, the caller logs the exception, and
    what was queued before stays queued. *)
Fixpoint queue_neighbors (self : Settings) (discovered : gset string)
    (depth : Z) (nbrs : list Neighbor) (queue enq : list item)
    : list item * list item :=
  match nbrs with
  | [] => (queue, enq)
  | neighbor :: rest =>
      match remote_device neighbor with
      | None => queue_neighbors self discovered depth rest queue enq
      | Some neighbor_hostname =>
          if bool_decide (neighbor_hostname = ""%string) then
            queue_neighbors self discovered depth rest queue enq
          else if bool_decide (neighbor_hostname ∈ discovered) then
            queue_neighbors self discovered depth rest queue enq
          else
            match capabilities neighbor with
            | CapsNone => (queue, enq)
            | caps =>
                let words := match caps with CapsList l => l | _ => [] end in
                if is_switch_or_router words then
                  match seed_devices self with
                  | [] => (queue, enq)
                  | seed0 :: _ =>
                      let neighbor_config :=
                        {| hostname := neighbor_hostname;
                           ip := str_or (remote_ip neighbor) neighbor_hostname;
                           device_type := device_type seed0 |} in
                      queue_neighbors self discovered depth rest
                        (queue ++ [(neighbor_config, depth + 1)])
                        (enq ++ [(neighbor_config, depth + 1)])
                  end
                else queue_neighbors self discovered depth rest queue enq
            end
      end
  end.

(** [_process_discovered_device]. *)
Definition _process_discovered_device (self : Settings) (st : State)
    (device_info : DeviceInfo) (depth : Z) : State :=
  let '(queue, enq) :=
    if bool_decide (depth < max_depth self - 1) then
      queue_neighbors self (discovered_devices st) depth
        (neighbors device_info) (discovery_queue st) (enqueued st)
    else (discovery_queue st, enqueued st) in
  {| discovered_devices := discovered_devices st;
     discovery_queue := queue;
     device_data := <[info_hostname device_info := device_info]> (device_data st);
     errors := errors st;
     futures := futures st;
     enqueued := enq;
     submitted := submitted st |}.

(** What a worker running [_discover_device] hands back: a collected
    record, no record, or an exception (with its message). *)
Inductive outcome :=
| Collected (device_info : DeviceInfo)
| NoInfo
| Raised (message : string).

Definition record_error (st : State) (device : string) (message : string) : State :=
  {| discovered_devices := discovered_devices st;
     discovery_queue := discovery_queue st;
     device_data := device_data st;
     errors := errors st ++ [(device, message)];
     futures := futures st;
     enqueued := enqueued st;
     submitted := submitted st |}.

(** The completed future is handled by the main thread: [_discover_device]
    returned [(device_info, depth)] or [(None, depth)] after appending to
    [errors]. *)
Definition handle_result (self : Settings) (st : State) (task : item)
    (o : outcome) : State :=
  match o with
  | Collected device_info =>
      _process_discovered_device self st device_info task.2
  | NoInfo =>
      record_error st (hostname task.1) "Failed to collect device information"
  | Raised message => record_error st (hostname task.1) message
  end.

Definition set_futures (st : State) (futs : list item) : State :=
  {| discovered_devices := discovered_devices st;
     discovery_queue := discovery_queue st;
     device_data := device_data st;
     errors := errors st;
     futures := futs;
     enqueued := enqueued st;
     submitted := submitted st |}.

(** One turn of the outer [while] of [_process_discovery_queue].  The turn
    exists when the executor could be built ([max_workers] positive) and the
    loop condition holds.  [_wait_for_completion] returns the first future
    to complete: which one ([i], an index into [futures]) and with what
    outcome ([o]) is up to the environment. *)
Definition loop_iteration (self : Settings) (st : State) (i : nat) (o : outcome)
    : option State :=
  if bool_decide (0 < max_workers self) then
    match discovery_queue st, futures st with
    | [], [] => None
    | _, _ =>
        let st1 := submit_tasks self st in
        match futures st1 with
        | [] => Some st1
        | _ =>
            task ← futures st1 !! i;
            Some (handle_result self (set_futures st1 (delete i (futures st1))) task o)
        end
    end
  else None.

(** The states of a crawl, observed at the end of each turn of the outer
    loop. *)
Inductive reachable (self : Settings) : State → Prop :=
| reach_start : reachable self (start_discovery self)
| reach_turn st i o st' :
    reachable self st →
    loop_iteration self st i o = Some st' →
    reachable self st'.

(** A scripted crawl: the environment's choices are given as a list. *)
Fixpoint run (self : Settings) (st : State) (script : list (nat * outcome))
    : option State :=
  match script with
  | [] => Some st
  | (i, o) :: script' =>
      st' ← loop_iteration self st i o;
      run self st' script'
  end.

(** The state a scripted crawl ends in (the start state when the script
    asks for a turn that cannot happen). *)
Definition crawl (self : Settings) (script : list (nat * outcome)) : State :=
  default (start_discovery self) (run self (start_discovery self) script).

(** The hostnames of a list of queue entries. *)
Definition hosts (l : list item) : list string :=
  (λ it : item, hostname it.1) <$> l.

(** The words of a capabilities value as the loop reads them
    ([neighbor.get("capabilities", [])]). *)
Definition caps_words (c : caps_field) : list string :=
  match c with CapsList l => l | _ => [] end.

(** A capability word that reads switch or router when case is ignored. *)
Definition names_switch_or_router (cap : string) : Prop :=
  Text.str_lower cap = "switch"%string ∨ Text.str_lower cap = "router"%string.

(** The tests the loop applies to one record before it queues it: a
    non-empty hostname, not yet discovered, and a capability word among the
    four spellings. *)
Definition enqueueable (discovered : gset string) (nb : Neighbor) : bool :=
  match remote_device nb with
  | Some h =>
      bool_decide (h ≠ ""%string) && bool_decide (h ∉ discovered)
      && is_switch_or_router (caps_words (capabilities nb))
  | None => false
  end.

(** The queue entry the loop builds from a record that passes. *)
Definition neighbor_item (self : Settings) (depth : Z) (nb : Neighbor) : item :=
  ({| hostname := default ""%string (remote_device nb);
      ip := str_or (remote_ip nb) (default ""%string (remote_device nb));
      device_type := match seed_devices self with
                     | seed0 :: _ => device_type seed0
                     | [] => ""%string
                     end |},
   depth + 1).

(** A record at which an exception ends the loop: its hostname is new and
    its capabilities are [None], or it passes and there is no seed to take
    the device type from. *)
Definition raises_at (self : Settings) (discovered : gset string)
    (nb : Neighbor) : Prop :=
  ∃ h, remote_device nb = Some h ∧ h ≠ ""%string ∧ h ∉ discovered
    ∧ (capabilities nb = CapsNone
       ∨ (is_switch_or_router (caps_words (capabilities nb)) = true
          ∧ seed_devices self = [])).

(** What the loop body demands of a neighbour before it is put on the
    queue. *)
Definition passes_filters (discovered : gset string) (nb : Neighbor)
    (h : string) : Prop :=
  remote_device nb = Some h
  ∧ h ≠ ""%string
  ∧ h ∉ discovered
  ∧ is_switch_or_router (caps_words (capabilities nb)) = true.

(** The invariant of the crawl, kept by every turn of the outer loop. *)
Record crawl_inv (self : Settings) (st : State) : Prop := {
  inv_queue : discovery_queue st ⊆ enqueued st;
  inv_futures : futures st ⊆ submitted st;
  inv_submitted :
    ∀ it, it ∈ submitted st → it ∈ enqueued st ∧ it.2 < max_depth self;
  inv_enqueued :
    ∃ nbrs, enqueued st = seed_items self ++ nbrs
      ∧ ∀ it, it ∈ nbrs → 0 < it.2 < max_depth self;
  inv_nodup : NoDup (hosts (submitted st));
  inv_discovered : discovered_devices st = list_to_set (hosts (submitted st))
}.

End Engine.
(** ** Concrete crawls *)

Module Scenarios.
Import Engine.

Definition sw1 : DeviceConfig := mkDeviceConfig "sw1" "10.0.0.1" "cisco_ios".
Definition sw2 : DeviceConfig := mkDeviceConfig "sw2" "10.0.0.2" "cisco_ios".

(** A neighbour entry for [sw3] with the given capability words. *)
Definition sw3_seen (words : list string) : Neighbor :=
  mkNeighbor (Some "sw3"%string) (Some "10.0.0.3"%string) (CapsList words).

(** The configuration file sets [max_depth: 0]; one seed. *)
Definition depth0 : Settings := init [sw1] 0 5 None None.

(** [max_depth = 1]; the one seed is collected and reports a switch. *)
Definition depth1 : Settings := init [sw1] 10 5 (Some 1) None.
Definition depth1_script : list (nat * outcome) :=
  [(0%nat, Collected (mkDeviceInfo "sw1" [sw3_seen ["Switch"%string]]))].

(** Two seeds, one worker; each seed is collected in turn and each reports
    the same switch [sw3]. *)
Definition shared : Settings := init [sw1; sw2] 10 1 None None.
Definition shared_script : list (nat * outcome) :=
  [(0%nat, Collected (mkDeviceInfo "sw1" [sw3_seen ["Switch"%string]]));
   (0%nat, Collected (mkDeviceInfo "sw2" [sw3_seen ["Switch"%string]]))].

(** One seed, which reports [sw3] with its capabilities in capitals. *)
Definition capitals : Settings := init [sw1] 10 5 None None.
Definition capitals_script : list (nat * outcome) :=
  [(0%nat, Collected (mkDeviceInfo "sw1"
                        [sw3_seen ["SWITCH"%string; "ROUTER"%string]]))].

End Scenarios.

(** ** Sample device output *)

Module Samples.

Definition nl : string := String "010" EmptyString.

(** [show interfaces trunk], with an allowed list that names 0 and 4095. *)
Definition trunk_output : string :=
  ("Port        Mode         Encapsulation  Status        Native vlan" ++ nl ++
   "Gi1/0/1     on           802.1q         trunking      1" ++ nl ++ nl ++
   "Port        Vlans allowed on trunk" ++ nl ++
   "Gi1/0/1     0,4095" ++ nl ++ nl ++
   "Port        Vlans allowed and active in management domain" ++ nl ++
   "Gi1/0/1     1")%string.

(** [show vlan brief], with rows for the ids 0 and 4095. *)
Definition vlan_output : string :=
  ("VLAN Name                             Status    Ports" ++ nl ++
   "---- -------------------------------- --------- ---------" ++ nl ++
   "0    zero                             active    Gi1/0/2" ++ nl ++
   "4095 top                              active")%string.

End Samples.

(** ** Views of the crawl state *)

Module EngineViews.
Import Engine.

(** The depths of a list of queue entries. *)
Definition depths (l : list item) : list Z := (λ it : item, it.2) <$> l.

(** The outer loop of [_process_discovery_queue] has nothing left to do. *)
Definition finished (st : State) : Prop :=
  discovery_queue st = [] ∧ futures st = [].

(** Two seeds, one worker; [sw1] fails to answer, [sw2] reports [sw3]. *)
Definition mixed : Settings := init [Scenarios.sw1; Scenarios.sw2] 10 1 None None.
Definition mixed_script : list (nat * outcome) :=
  [(0%nat, NoInfo);
   (0%nat, Collected (mkDeviceInfo "sw2" [Scenarios.sw3_seen ["Switch"%string]]));
   (0%nat, Collected (mkDeviceInfo "sw3" []))].

(** A neighbour entry whose ["capabilities"] value is [None]. *)
Definition sw4_no_caps : Neighbor :=
  mkNeighbor (Some "sw4"%string) None CapsNone.

(** The breadth-first invariant of a crawl with a single worker. *)
Record bfs_inv (st : State) : Prop := {
  bfs_idle : futures st = [];
  bfs_submitted : StronglySorted Z.le (depths (submitted st));
  bfs_queue : StronglySorted Z.le (depths (discovery_queue st));
  bfs_cross :
    ∀ s q, s ∈ submitted st → q ∈ discovery_queue st → s.2 ≤ q.2;
  bfs_next :
    ∀ q, q ∈ discovery_queue st →
      q.2 = 0 ∨ ∃ s, s ∈ submitted st ∧ q.2 ≤ s.2 + 1
}.

End EngineViews.

(** ** Python strings: facts *)

Module TextFacts.
Import Text.

Lemma lstrip_subseteq s : lstrip s ⊆ s.
Proof.
  induction s as [|c s IH]; simpl; [done|].
  destruct (isspace c); [|done]. set_solver.
Qed.

Lemma strip_subseteq s : strip s ⊆ s.
Proof.
  unfold strip, rstrip. intros c Hc.
  rewrite elem_of_reverse in Hc. apply lstrip_subseteq in Hc.
  rewrite elem_of_reverse in Hc. by apply lstrip_subseteq in Hc.
Qed.

Lemma skip_int_space_subseteq s : skip_int_space s ⊆ s.
Proof.
  induction s as [|c s IH]; simpl; [done|].
  destruct (int_space c); [|done]. set_solver.
Qed.



(** No piece of a split holds the separator. *)
Lemma split_pieces_free sep s piece :
  piece ∈ split sep s → sep ∉ piece.
Proof.
  revert piece. induction s as [|c s IH]; intros piece; simpl.
  - intros ->%list_elem_of_singleton. by intros ?%elem_of_nil.
  - case_bool_decide as Hc.
    + intros [->|Hin]%elem_of_cons; [by intros ?%elem_of_nil | by apply IH].
    + destruct (split sep s) as [|first rest].
      * intros ->%list_elem_of_singleton. set_solver.
      * intros [->|Hin]%elem_of_cons.
        -- intros [?|?]%elem_of_cons; [done|]. apply (IH first); [by left | done].
        -- apply IH. by right.
Qed.

(** *** [int] *)

Lemma digit_value_nonneg c : isdigit c = true → 0 ≤ digit_value c.
Proof.
  unfold isdigit, in_range, digit_value. intros [H1 _]%andb_true_iff.
  apply N.leb_le in H1. lia.
Qed.

Lemma int_digits_nonneg s : ∀ acc u v,
  0 ≤ acc → int_digits acc u s = Some v → 0 ≤ v.
Proof.
  induction s as [|c s IH]; intros acc u v Hacc; simpl.
  - destruct u; [done|]. by intros [= <-].
  - destruct (isdigit c) eqn:Hd.
    + apply IH. pose proof (digit_value_nonneg c Hd). lia.
    + case_bool_decide; [|done]. destruct u; [done|]. by apply IH.
Qed.

Lemma int_unsigned_nonneg s v : int_unsigned s = Some v → 0 ≤ v.
Proof.
  destruct s as [|c s]; simpl; [done|].
  destruct (isdigit c) eqn:Hd; [|done].
  apply int_digits_nonneg. by apply digit_value_nonneg.
Qed.

(** A text without a minus sign denotes no negative integer. *)
Lemma int_nonneg s v : "-"%char ∉ s → int s = Some v → 0 ≤ v.
Proof.
  intros Hfree. unfold int.
  set (s1 := reverse (skip_int_space (reverse (skip_int_space s)))).
  assert (s1 ⊆ s) as Hsub.
  { intros c Hc. unfold s1 in Hc.
    rewrite elem_of_reverse in Hc. apply skip_int_space_subseteq in Hc.
    rewrite elem_of_reverse in Hc. by apply skip_int_space_subseteq in Hc. }
  destruct s1 as [|c s1'] eqn:Hs1; [done|].
  assert (c ≠ "-"%char) as Hc.
  { intros ->. apply Hfree, Hsub. by left. }
  assert (∀ w, int_unsigned w = Some v → 0 ≤ v) as Hu
    by (intros w; apply int_unsigned_nonneg).
  destruct c as [[] [] [] [] [] [] [] []]; try done; try apply Hu.
Qed.

(** A run of digits always denotes an integer. *)
Lemma int_digits_total s : ∀ acc,
  Forall (λ c, isdigit c = true) s → is_Some (int_digits acc false s).
Proof.
  induction s as [|c s IH]; intros acc Hs; simpl; [done|].
  apply Forall_cons in Hs as [Hc Hs]. rewrite Hc. by apply IH.
Qed.

Lemma digit_not_int_space c : isdigit c = true → int_space c = false.
Proof. by destruct c as [[] [] [] [] [] [] [] []]. Qed.

Lemma skip_int_space_digit c s :
  isdigit c = true → skip_int_space (c :: s) = c :: s.
Proof. intros Hc. simpl. by rewrite digit_not_int_space. Qed.

Lemma int_of_digits w :
  w ≠ [] → Forall (λ c, isdigit c = true) w → ∃ v, int w = Some v ∧ 0 ≤ v.
Proof.
  intros Hne Hw.
  assert (reverse (skip_int_space (reverse (skip_int_space w))) = w) as Hskip.
  { destruct w as [|c w]; [done|].
    rewrite skip_int_space_digit by by apply Forall_cons in Hw as [? _].
    destruct (reverse (c :: w)) as [|c' w'] eqn:Hrev.
    { by apply (f_equal length) in Hrev; rewrite length_reverse in Hrev. }
    rewrite skip_int_space_digit, <- Hrev, reverse_involutive; [done|].
    assert (c' ∈ c :: w) as Hin.
    { apply elem_of_reverse. rewrite Hrev. by left. }
    rewrite Forall_forall in Hw. by apply Hw. }
  assert ("-"%char ∉ w) as Hfree.
  { intros Hin. rewrite Forall_forall in Hw. by apply Hw in Hin. }
  destruct (int w) as [v|] eqn:Hint.
  - exists v. split; [done|]. by apply (int_nonneg w).
  - exfalso. unfold int in Hint. rewrite Hskip in Hint.
    destruct w as [|c w]; [done|].
    apply Forall_cons in Hw as [Hc Hw].
    assert (int_unsigned (c :: w) = None) as Hun.
    { by destruct c as [[] [] [] [] [] [] [] []]. }
    simpl in Hun. rewrite Hc in Hun.
    destruct (int_digits_total w (digit_value c) Hw) as [v Hv]. congruence.
Qed.

(** *** [sorted(set(l))] *)

Lemma elem_of_sorted_set l v : v ∈ sorted_set l ↔ v ∈ l.
Proof.
  unfold sorted_set. rewrite merge_sort_Permutation, elem_of_elements.
  apply elem_of_list_to_set.
Qed.






End TextFacts.

(** ** Regular expressions: facts *)

Module RegexFacts.
Import Text Regex.

Lemma exec_seq f r1 r2 k : exec f (Seq r1 r2) k = exec f r1 (exec f r2 k).
Proof. reflexivity. Qed.

Lemma exec_bol f k prev s g res :
  exec f Bol k prev s g = Some res → k prev s g = Some res.
Proof. simpl. by destruct (at_bol f prev). Qed.

(** A greedy repetition hands the continuation what is left after a run of
    at least [lo] characters of the class. *)
Lemma rep_greedy_inv p k g res s : ∀ lo prev,
  rep_greedy p lo k prev s g = Some res →
  ∃ w s' prev',
    s = w ++ s' ∧ (lo ≤ length w)%nat ∧ Forall (λ c, p c = true) w
    ∧ k prev' s' g = Some res.
Proof.
  induction s as [|c s IH]; intros lo prev; simpl.
  - destruct lo; [|done]. intros Hk. exists [], [], prev. by split_and!.
  - assert (Hstop : match lo with O => k prev (c :: s) g | S _ => None end = Some res →
      ∃ w s' prev', c :: s = w ++ s' ∧ (lo ≤ length w)%nat
        ∧ Forall (λ c, p c = true) w ∧ k prev' s' g = Some res).
    { destruct lo; [|done]. intros Hk. exists [], (c :: s), prev. by split_and!. }
    destruct (p c) eqn:Hc; [|done].
    destruct (rep_greedy p (pred lo) k (Some c) s g) as [r|] eqn:Hrep; [|done].
    intros [= ->].
    destruct (IH _ _ Hrep) as (w & s' & prev' & -> & Hlo & Hw & Hk).
    exists (c :: w), s', prev'. split_and!; try done.
    + simpl. lia.
    + by constructor.
Qed.

Lemma rep_lazy_inv p k g res s : ∀ lo prev,
  rep_lazy p lo k prev s g = Some res →
  ∃ w s' prev',
    s = w ++ s' ∧ (lo ≤ length w)%nat ∧ Forall (λ c, p c = true) w
    ∧ k prev' s' g = Some res.
Proof.
  induction s as [|c s IH]; intros lo prev; simpl.
  - destruct lo; [|done]. destruct (k prev [] g) eqn:Hk; [|done].
    intros [= ->]. exists [], [], prev. by split_and!.
  - assert (Hmore : (if p c then rep_lazy p (pred lo) k (Some c) s g else None)
        = Some res →
      ∃ w s' prev', c :: s = w ++ s' ∧ (lo ≤ length w)%nat
        ∧ Forall (λ c, p c = true) w ∧ k prev' s' g = Some res).
    { destruct (p c) eqn:Hc; [|done]. intros Hrep.
      destruct (IH _ _ Hrep) as (w & s' & prev' & -> & Hlo & Hw & Hk).
      exists (c :: w), s', prev'. split_and!; try done.
      - simpl. lia.
      - by constructor. }
    destruct lo; [|done].
    destruct (k prev (c :: s) g) eqn:Hk; [|done].
    intros [= ->]. exists [], (c :: s), prev. by split_and!.
Qed.

Lemma exec_rep f greedy lo p k prev s g res :
  exec f (Rep greedy lo p) k prev s g = Some res →
  ∃ w s' prev',
    s = w ++ s' ∧ (lo ≤ length w)%nat ∧ Forall (λ c, p c = true) w
    ∧ k prev' s' g = Some res.
Proof.
  destruct greedy; simpl; [apply rep_greedy_inv | apply rep_lazy_inv].
Qed.

(** A group around a repetition records the run. *)
Lemma exec_grp_rep f n greedy lo p k prev s g res :
  exec f (Grp n (Rep greedy lo p)) k prev s g = Some res →
  ∃ w s' prev',
    s = w ++ s' ∧ (lo ≤ length w)%nat ∧ Forall (λ c, p c = true) w
    ∧ k prev' s' ((n, w) :: g) = Some res.
Proof.
  change (exec f (Grp n (Rep greedy lo p)) k prev s g) with
    (exec f (Rep greedy lo p)
       (λ prev' s' g', k prev' s' ((n, take (length s - length s') s) :: g'))
       prev s g).
  intros Hrep. apply exec_rep in Hrep as (w & s' & prev' & Hs & Hlo & Hw & Hk).
  exists w, s', prev'. split_and!; try done.
  rewrite Hs in Hk. rewrite length_app in Hk.
  replace (length w + length s' - length s')%nat with (length w) in Hk by lia.
  by rewrite take_app_length in Hk.
Qed.

(** However a pattern is matched, the continuation is reached, and the
    groups it sees are the old ones with groups of the pattern in front. *)
Lemma exec_reaches f r : ∀ k prev s g res,
  exec f r k prev s g = Some res →
  ∃ prev' s' new,
    k prev' s' (new ++ g) = Some res
    ∧ Forall (λ e, e.1 ∈ group_names r) new.
Proof.
  induction r as [pat|p|greedy lo p|r1 IH1 r2 IH2|r1 IH1 r2 IH2|n r IH| | | |];
    intros k prev s g res.
  - simpl. destruct s as [|c s]; [done|].
    destruct (chr_matches f pat c); [|done]. intros Hk.
    exists (Some c), s, []. by split.
  - simpl. destruct s as [|c s]; [done|].
    destruct (p c); [|done]. intros Hk. exists (Some c), s, []. by split.
  - intros (w & s' & prev' & _ & _ & _ & Hk)%exec_rep.
    exists prev', s', []. by split.
  - rewrite exec_seq.
    intros (prev1 & s1 & new1 & Hk1 & Hn1)%IH1.
    apply IH2 in Hk1 as (prev2 & s2 & new2 & Hk2 & Hn2).
    exists prev2, s2, (new2 ++ new1). rewrite <- app_assoc. split; [done|].
    simpl. apply Forall_app. split.
    + eapply Forall_impl; [exact Hn2|]. intros e He. apply elem_of_app. by right.
    + eapply Forall_impl; [exact Hn1|]. intros e He. apply elem_of_app. by left.
  - simpl. destruct (exec f r1 k prev s g) as [r|] eqn:H1.
    + intros [= ->]. apply IH1 in H1 as (prev1 & s1 & new1 & Hk1 & Hn1).
      exists prev1, s1, new1. split; [done|].
      eapply Forall_impl; [exact Hn1|]. intros e He. apply elem_of_app. by left.
    + intros (prev2 & s2 & new2 & Hk2 & Hn2)%IH2.
      exists prev2, s2, new2. split; [done|].
      eapply Forall_impl; [exact Hn2|]. intros e He. apply elem_of_app. by right.
  - simpl. intros (prev1 & s1 & new1 & Hk1 & Hn1)%IH.
    exists prev1, s1, ((n, take (length s - length s1) s) :: new1).
    split; [done|]. constructor; [by left|].
    eapply Forall_impl; [exact Hn1|]. intros e He. by right.
  - simpl. destruct (at_bol f prev); [|done]. intros Hk. exists prev, s, []. by split.
  - simpl. destruct (at_eol f s); [|done]. intros Hk. exists prev, s, []. by split.
  - simpl. destruct s; [|done]. intros Hk. exists prev, [], []. by split.
  - simpl. intros Hk. exists prev, s, []. by split.
Qed.

(** A group around a pattern without groups records one text. *)
Lemma exec_grp_plain f n r k prev s g res :
  group_names r = [] →
  exec f (Grp n r) k prev s g = Some res →
  ∃ w prev' s', k prev' s' ((n, w) :: g) = Some res.
Proof.
  intros Hplain. simpl.
  intros (prev' & s' & new & Hk & Hnew)%exec_reaches.
  rewrite Hplain in Hnew. destruct new as [|e new].
  - by eexists _, _, _.
  - apply Forall_cons in Hnew as [He _]. by apply elem_of_nil in He.
Qed.

(** Every element of [finditer] is what the pattern matched somewhere. *)
Lemma finditer_from_matches f r s : ∀ skip prev g,
  g ∈ finditer_from f r skip prev s →
  ∃ prev' s' end_prev rest, match_at f r prev' s' = Some (g, end_prev, rest).
Proof.
  induction s as [|c s IH]; intros skip prev g; simpl.
  - destruct skip; [|by intros ?%elem_of_nil].
    destruct (match_at f r prev []) as [[[g' p'] rest]|] eqn:Hm;
      [|by intros ?%elem_of_nil].
    intros ->%list_elem_of_singleton. by eexists _, _, _, _.
  - destruct skip; [|apply IH].
    destruct (match_at f r prev (c :: s)) as [[[g' p'] rest]|] eqn:Hm; [|apply IH].
    intros [->|Hin]%elem_of_cons; [by eexists _, _, _, _ | by apply IH in Hin].
Qed.

End RegexFacts.

(** ** MAC normalisation *)

Module ValidatorsFacts.
Import Text Validators.

Lemma lower_keeps_separators c : is_separator (lower_char c) = is_separator c.
Proof. by destruct c as [[] [] [] [] [] [] [] []]. Qed.

Lemma remove_separators_lower s :
  remove_separators (lower s) = lower (remove_separators s).
Proof.
  induction s as [|c s IH]; [done|].
  change (lower (c :: s)) with (lower_char c :: lower s).
  unfold remove_separators in *. simpl List.filter.
  rewrite lower_keeps_separators, IH.
  by destruct (is_separator c).
Qed.

Lemma hex_is_plain c :
  is_hex c = true → lower_char c = c ∧ is_separator c = false.
Proof. by destruct c as [[] [] [] [] [] [] [] []]. Qed.

(** A text of twelve characters, spelled out. *)
Lemma twelve_chars (s : list ascii) :
  length s = 12%nat →
  ∃ a b c d e f g h i j k l, s = [a; b; c; d; e; f; g; h; i; j; k; l].
Proof.
  intros Hlen.
  do 12 (destruct s as [|? s]; [done|]). destruct s; [|done].
  by repeat eexists.
Qed.

(** What [normalize_mac] returns on twelve lower-case hexadecimal digits
    with separators among them. *)
Lemma normalize_mac_ok mac_address mac :
  normalize_mac mac_address = Ok mac ↔
  ∃ a b c d e f g h i j k l,
    remove_separators (lower (chars mac_address))
      = [a; b; c; d; e; f; g; h; i; j; k; l]
    ∧ Forall (λ x, is_hex x = true) [a; b; c; d; e; f; g; h; i; j; k; l]
    ∧ mac = text [a; b; ":"; c; d; ":"; e; f; ":"; g; h; ":"; i; j; ":"; k; l]%char.
Proof.
  unfold normalize_mac.
  set (cleaned := remove_separators (lower (chars mac_address))).
  split.
  - case_bool_decide as Hlen; [done|].
    destruct (forallb is_hex cleaned) eqn:Hhex; [|done]. simpl.
    destruct (twelve_chars cleaned Hlen)
      as (a & b & c & d & e & f & g & h & i & j & k & l & Hs).
    rewrite Hs in *. intros [= <-].
    exists a, b, c, d, e, f, g, h, i, j, k, l. split_and!; [done| |done].
    apply Forall_forall. intros x Hx. apply list_elem_of_In in Hx.
    rewrite forallb_forall in Hhex. by apply Hhex.
  - intros (a & b & c & d & e & f & g & h & i & j & k & l & Hs & Hhex & ->).
    rewrite Hs. rewrite bool_decide_eq_false_2 by (simpl; lia).
    assert (forallb is_hex [a; b; c; d; e; f; g; h; i; j; k; l] = true) as ->.
    { apply forallb_forall. intros x Hx. apply list_elem_of_In in Hx.
      rewrite Forall_forall in Hhex. by apply Hhex. }
    done.
Qed.

Ltac use_hex H :=
  repeat match type of H with
  | Forall _ (?x :: _) =>
      let Hx := fresh "Hx" in
      apply Forall_cons in H as [Hx H];
      let Hl := fresh "Hl" in let Hs := fresh "Hs" in
      pose proof (hex_is_plain x Hx) as [Hl Hs]
  end.

Lemma colon_form_canonical a b c d e f g h i j k l :
  Forall (λ x, is_hex x = true) [a; b; c; d; e; f; g; h; i; j; k; l] →
  matches_canonical_form
    (text [a; b; ":"; c; d; ":"; e; f; ":"; g; h; ":"; i; j; ":"; k; l]%char).
Proof.
  intros Hhex. use_hex Hhex.
  unfold matches_canonical_form.
  rewrite list_ascii_of_string_of_list_ascii.
  unfold Regex.re_match, Regex.match_at, canonical_mac_pattern.
  cbn [Regex.seq Regex.exec Regex.at_bol].
  repeat match goal with H : is_hex _ = true |- _ => rewrite H; clear H end.
  vm_compute. by eexists.
Qed.

Lemma colon_form_cleaned a b c d e f g h i j k l :
  Forall (λ x, is_hex x = true) [a; b; c; d; e; f; g; h; i; j; k; l] →
  remove_separators
    (lower [a; b; ":"; c; d; ":"; e; f; ":"; g; h; ":"; i; j; ":"; k; l]%char)
  = [a; b; c; d; e; f; g; h; i; j; k; l].
Proof.
  intros Hhex. use_hex Hhex.
  unfold remove_separators, lower. cbn [fmap list_fmap].
  repeat match goal with H : lower_char _ = _ |- _ => rewrite H; clear H end.
  change (lower_char ":") with ":"%char.
  cbn [List.filter].
  repeat match goal with H : is_separator _ = false |- _ => rewrite H; clear H end.
  done.
Qed.

Lemma written_forms_accepted digits form :
  length digits = 12%nat →
  Forall (λ x, is_hex (lower_char x) = true) digits →
  form ∈ written_forms digits →
  normalize_mac (text form)
    = Ok (text (join (chars ":") (pieces 2 (lower digits)))).
Proof.
  intros Hlen Hhex Hform.
  destruct (twelve_chars digits Hlen)
    as (a & b & c & d & e & f & g & h & i & j & k & l & ->).
  assert (Forall (λ x, is_hex x = true)
            [lower_char a; lower_char b; lower_char c; lower_char d;
             lower_char e; lower_char f; lower_char g; lower_char h;
             lower_char i; lower_char j; lower_char k; lower_char l]) as Hlow.
  { change (Forall (λ x, is_hex x = true)
              (lower_char <$> [a; b; c; d; e; f; g; h; i; j; k; l])).
    by apply Forall_fmap. }
  clear Hhex. rename Hlow into Hhex.
  apply normalize_mac_ok.
  exists (lower_char a), (lower_char b), (lower_char c), (lower_char d),
    (lower_char e), (lower_char f), (lower_char g), (lower_char h),
    (lower_char i), (lower_char j), (lower_char k), (lower_char l).
  split_and!; [|done|done].
  rewrite list_ascii_of_string_of_list_ascii.
  use_hex Hhex.
  change (written_forms [a; b; c; d; e; f; g; h; i; j; k; l]) with
    [[a; b; ":"; c; d; ":"; e; f; ":"; g; h; ":"; i; j; ":"; k; l];
     [a; b; "-"; c; d; "-"; e; f; "-"; g; h; "-"; i; j; "-"; k; l];
     [a; b; c; d; "."; e; f; g; h; "."; i; j; k; l];
     [a; b; c; d; e; f; g; h; i; j; k; l]]%char in Hform.
  repeat (apply elem_of_cons in Hform as [->|Hform]);
    [| | | | by apply elem_of_nil in Hform];
    unfold remove_separators, lower; cbn [fmap list_fmap List.filter];
    repeat match goal with H : is_separator _ = false |- _ => rewrite H; clear H end;
    done.
Qed.

(** C3: [normalize_mac] returns normally exactly when the input, with the
    separators [.], [:], [-] and whitespace removed and lower-cased, is
    twelve hexadecimal digits, and raises [ValueError] on any other length;
    the colon, hyphen, dotted and unseparated forms of twelve hexadecimal
    digits are all accepted; every returned value matches
    [^[0-9a-f]{2}(:[0-9a-f]{2}){5}$]; and [normalize_mac] returns its own
    output unchanged. *)
Theorem normalize_mac_correct (mac_address : string) :
  let cleaned := lower (remove_separators (chars mac_address)) in
  ((∃ mac, normalize_mac mac_address = Ok mac)
     ↔ length cleaned = 12%nat ∧ Forall (λ c, is_hex c = true) cleaned)
  ∧ (length cleaned ≠ 12%nat →
       ∃ message, normalize_mac mac_address = ValueError message)
  ∧ (∀ digits form,
       length digits = 12%nat →
       Forall (λ c, is_hex (lower_char c) = true) digits →
       form ∈ written_forms digits →
       ∃ mac, normalize_mac (text form) = Ok mac)
  ∧ (∀ mac, normalize_mac mac_address = Ok mac →
       matches_canonical_form mac ∧ normalize_mac mac = Ok mac).
Proof.
  intros cleaned.
  assert (Hiff : (∃ mac, normalize_mac mac_address = Ok mac)
     ↔ length cleaned = 12%nat ∧ Forall (λ c, is_hex c = true) cleaned).
  { unfold cleaned. rewrite <- remove_separators_lower. split.
    - intros (mac & Hmac). apply normalize_mac_ok in Hmac
        as (a & b & c & d & e & f & g & h & i & j & k & l & -> & Hhex & _).
      done.
    - intros [Hlen Hhex].
      destruct (twelve_chars _ Hlen)
        as (a & b & c & d & e & f & g & h & i & j & k & l & Hs).
      rewrite Hs in Hhex. eexists. apply normalize_mac_ok.
      exists a, b, c, d, e, f, g, h, i, j, k, l. by split_and!. }
  split_and!.
  - exact Hiff.
  - intros Hlen. destruct (normalize_mac mac_address) as [mac|message] eqn:Hres.
    + destruct Hiff as [Hiff _]. destruct Hiff as [Hlen' _]; [by exists mac|].
      done.
    + by exists message.
  - intros digits form Hlen Hhex Hform. eexists.
    by apply written_forms_accepted.
  - intros mac Hmac. apply normalize_mac_ok in Hmac
      as (a & b & c & d & e & f & g & h & i & j & k & l & _ & Hhex & ->).
    split.
    + by apply colon_form_canonical.
    + apply normalize_mac_ok.
      exists a, b, c, d, e, f, g, h, i, j, k, l. split_and!; [|done|done].
      rewrite list_ascii_of_string_of_list_ascii.
      by apply colon_form_cleaned.
Qed.

End ValidatorsFacts.

(** ** VLAN parsing *)

Module ParsersFacts.
Import Text Parsers TextFacts RegexFacts.

Lemma requested_cons part parts :
  requested (part :: parts) = ids_of (parse_part part) ++ requested parts.
Proof. reflexivity. Qed.

Lemma elem_of_requested parts v :
  v ∈ requested parts ↔ ∃ part, part ∈ parts ∧ v ∈ ids_of (parse_part part).
Proof.
  unfold requested. rewrite list_elem_of_bind. naive_solver.
Qed.

Lemma range_length_nonneg start stop : 0 ≤ range_length start stop.
Proof. unfold range_length. lia. Qed.

Lemma length_ids_of a :
  Z.of_nat (length (ids_of a))
  = match a with
    | Nothing => 0
    | Append _ => 1
    | Extend start stop => range_length start stop
    end.
Proof.
  destruct a as [|v|start stop]; simpl; [done..|].
  rewrite length_seqZ. pose proof (range_length_nonneg start stop). lia.
Qed.

(** Once an exception is raised the loop is over. *)
Lemma collect_raised limits e parts :
  foldl (λ vlans part, and_then vlans (λ l, grow limits l (parse_part part)))
    (Raises e) parts = Raises e.
Proof. induction parts as [|part parts IH]; simpl; done. Qed.

(** The loop returns exactly when the list has room for all the ids asked
    for and no range is longer than [sys.maxsize]; it then holds those ids
    in the order asked. *)
Lemma collect_from limits parts : ∀ acc l,
  Z.of_nat (length acc) ≤ Z.of_N (room limits) →
  foldl (λ vlans part, and_then vlans (λ l, grow limits l (parse_part part)))
    (Returns acc) parts = Returns l
  ↔ (Z.of_nat (length acc) + Z.of_nat (length (requested parts))
       ≤ Z.of_N (room limits)
     ∧ ∀ part start stop,
         part ∈ parts → parse_part part = Extend start stop →
         range_length start stop ≤ Z.of_N (maxsize limits))
    ∧ l = acc ++ requested parts.
Proof.
  induction parts as [|part parts IH]; intros acc l Hacc.
  { simpl. rewrite app_nil_r. split.
    - intros [= <-]. split_and!; [lia| |done]. by intros part ? ? ?%elem_of_nil.
    - by intros [_ ->]. }
  rewrite requested_cons, length_app, Nat2Z.inj_add, length_ids_of.
  cbn [foldl and_then]. destruct (parse_part part) as [|v|start stop] eqn:Hpart.
  - simpl. rewrite IH by done. simpl. split.
    + intros [[Hlen Hranges] ->]. split_and!; [lia| |done].
      intros p a b [->|Hp]%elem_of_cons Hext; [congruence|by eapply Hranges].
    + intros [[Hlen Hranges] ->]. split_and!; [lia| |done].
      intros p a b Hp Hext. eapply Hranges; [by right|done].
  - simpl. case_bool_decide as Hroom.
    + rewrite IH by (rewrite length_app; simpl; lia).
      rewrite length_app, <- app_assoc. simpl. split.
      * intros [[Hlen Hranges] ->]. split_and!; [lia| |done].
        intros p a b [->|Hp]%elem_of_cons Hext; [congruence|by eapply Hranges].
      * intros [[Hlen Hranges] ->]. split_and!; [lia| |done].
        intros p a b Hp Hext. eapply Hranges; [by right|done].
    + rewrite collect_raised. split; [done|].
      intros [[Hlen _] _]. lia.
  - pose proof (range_length_nonneg start stop) as Hn.
    simpl. case_bool_decide as Hmax.
    { rewrite collect_raised. split; [done|].
      intros [[_ Hranges] _].
      specialize (Hranges part start stop (list_elem_of_here _ _) Hpart). lia. }
    case_bool_decide as Hroom.
    + rewrite IH by (rewrite length_app, length_seqZ; lia).
      rewrite length_app, length_seqZ, <- app_assoc. split.
      * intros [[Hlen Hranges] ->]. split_and!; [lia| |done].
        intros p a b [->|Hp]%elem_of_cons Hext.
        -- rewrite Hpart in Hext. injection Hext as <- <-. lia.
        -- by eapply Hranges.
      * intros [[Hlen Hranges] ->]. split_and!; [lia| |done].
        intros p a b Hp Hext. eapply Hranges; [by right|done].
    + rewrite collect_raised. split; [done|].
      intros [[Hlen _] _]. lia.
Qed.

Lemma collect_parts_returns limits parts l :
  collect_parts limits parts = Returns l
  ↔ fits limits parts ∧ l = requested parts.
Proof.
  unfold collect_parts, fits. rewrite collect_from by (simpl; lia).
  simpl. by rewrite Z.add_0_l.
Qed.

Lemma parse_vlan_list_returns limits vlan_str l :
  _parse_vlan_list limits vlan_str = Returns l
  ↔ fits limits (split "," (chars vlan_str))
    ∧ l = sorted_set (requested (split "," (chars vlan_str))).
Proof.
  unfold _parse_vlan_list.
  destruct (collect_parts limits (split "," (chars vlan_str))) as [vlans|e] eqn:Hc;
    simpl.
  - apply collect_parts_returns in Hc as [Hfits ->]. naive_solver.
  - split; [done|]. intros [Hfits _].
    assert (collect_parts limits (split "," (chars vlan_str))
              = Returns (requested (split "," (chars vlan_str)))) as Hr
      by by apply collect_parts_returns.
    congruence.
Qed.


(** No fragment asks for a negative id: a text that goes through [int]
    never holds a minus sign. *)
Lemma parse_part_nonneg part v : v ∈ ids_of (parse_part part) → 0 ≤ v.
Proof.
  unfold parse_part. case_bool_decide as Hdash.
  - destruct (split "-" (strip part)) as [|start [|end_ [|]]] eqn:Hsplit;
      try by intros ?%elem_of_nil.
    destruct (int (strip start)) as [a|] eqn:Ha; [|by intros ?%elem_of_nil].
    destruct (int (strip end_)) as [b|] eqn:Hb; [|by intros ?%elem_of_nil].
    simpl. intros Hv%elem_of_seqZ.
    assert (0 ≤ a); [|lia].
    apply (int_nonneg (strip start)); [|done].
    intros Hin%strip_subseteq.
    apply (split_pieces_free "-" (strip part) start); [|done].
    rewrite Hsplit. by left.
  - destruct (int (strip part)) as [x|] eqn:Hx; [|by intros ?%elem_of_nil].
    simpl. intros ->%list_elem_of_singleton. by apply (int_nonneg (strip part)).
Qed.

Lemma parse_vlan_list_nonneg limits vlan_str l v :
  _parse_vlan_list limits vlan_str = Returns l → v ∈ l → 0 ≤ v.
Proof.
  intros [_ ->]%parse_vlan_list_returns.
  rewrite elem_of_sorted_set, elem_of_requested.
  intros (part & _ & Hv). by apply (parse_part_nonneg part).
Qed.

(** *** Trunk-allowed lists *)

(** C4, as stated, fails: a range too long for a list makes
    [vlans.extend] raise, and the exception is not one the function
    catches; on a 64-bit CPython the range [0-9223372036854775807] raises
    [OverflowError] and the range [0-1152921504606846975] raises
    [MemoryError], so [_parse_vlan_list] does not return on every input. *)
Lemma huge_range_raises :
  _parse_vlan_list cpython64 "0-9223372036854775807" = Raises OverflowError
  ∧ _parse_vlan_list cpython64 "0-1152921504606846975" = Raises MemoryError
  ∧ ¬ ∃ l, _parse_vlan_list cpython64 "0-9223372036854775807" = Returns l.
Proof.
  assert (_parse_vlan_list cpython64 "0-9223372036854775807"
            = Raises OverflowError) as Hover by by vm_compute.
  split_and!; [done | by vm_compute |]. intros [l Hl]. congruence.
Qed.


(** *** The range of VLAN ids *)

(** What a match of [vlan_pattern] captures: three groups, the first a
    non-empty run of digits. *)
Lemma vlan_pattern_groups prev s g end_prev rest :
  Regex.match_at (Regex.mkFlags true true) vlan_pattern prev s
    = Some (g, end_prev, rest) →
  ∃ w1 w2 w3,
    g = [(3%nat, w3); (2%nat, w2); (1%nat, w1)]
    ∧ w1 ≠ [] ∧ Forall (λ c, isdigit c = true) w1.
Proof.
  unfold Regex.match_at, vlan_pattern. cbn [Regex.seq].
  rewrite !exec_seq.
  intros H%exec_bol.
  apply exec_grp_rep in H as (w1 & s1 & p1 & _ & Hlen1 & Hw1 & H).
  apply exec_rep in H as (_ & s2 & p2 & _ & _ & _ & H).
  apply exec_grp_rep in H as (w2 & s3 & p3 & _ & _ & _ & H).
  apply exec_rep in H as (_ & s4 & p4 & _ & _ & _ & H).
  apply exec_grp_plain in H as (w3 & p5 & s5 & H); [|done].
  injection H as <- _ _.
  exists w1, w2, w3. split_and!; [done| |done].
  intros ->. simpl in Hlen1. lia.
Qed.

Lemma vlan_of_match_nonneg g prev s end_prev rest :
  Regex.match_at (Regex.mkFlags true true) vlan_pattern prev s
    = Some (g, end_prev, rest) →
  ∃ vlan, vlan_of_match g = Some vlan ∧ 0 ≤ vlan_id vlan.
Proof.
  intros (w1 & w2 & w3 & -> & Hne & Hdigits)%vlan_pattern_groups.
  destruct (int_of_digits w1 Hne Hdigits) as (v & Hv & Hpos).
  unfold vlan_of_match. simpl. rewrite Hv. simpl. by eexists.
Qed.

Lemma parse_vlans_nonneg output :
  ∃ vlans, parse_vlans output = Some vlans
    ∧ ∀ vlan, vlan ∈ vlans → 0 ≤ vlan_id vlan.
Proof.
  unfold parse_vlans.
  set (matches := Regex.finditer _ _ _).
  assert (∀ g, g ∈ matches →
    ∃ vlan, vlan_of_match g = Some vlan ∧ 0 ≤ vlan_id vlan) as Hall.
  { intros g (p & s & ep & rest & Hm)%finditer_from_matches.
    by apply (vlan_of_match_nonneg g p s ep rest). }
  clearbody matches.
  induction matches as [|g matches IH].
  - exists []. split; [done|]. by intros vlan ?%elem_of_nil.
  - destruct (Hall g) as (vlan & Hvlan & Hpos); [by left|].
    destruct IH as (vlans & Hvlans & Hrest).
    { intros g' Hg'. apply Hall. by right. }
    exists (vlan :: vlans). split.
    + simpl. rewrite Hvlan. simpl. by rewrite Hvlans.
    + intros vlan' [->|Hin]%elem_of_cons; [done | by apply Hrest].
Qed.

(** What holds of every entry of a dictionary built line by line, when
    it holds of every list [_parse_vlan_list] returns. *)
Lemma parse_trunk_line_values (P : string → list Z → Prop) limits
    trunk_vlans line trunk_vlans' :
  (∀ g end_prev rest interface vlans_str vlans,
     Regex.re_match (Regex.mkFlags false false) trunk_line_pattern (strip line)
       = Some (g, end_prev, rest) →
     Regex.group 1 g = Some interface →
     _parse_vlan_list limits vlans_str = Returns vlans →
     P (text interface) vlans) →
  map_Forall P trunk_vlans →
  parse_trunk_line limits trunk_vlans line = Returns trunk_vlans' →
  map_Forall P trunk_vlans'.
Proof.
  intros HP Hmap. unfold parse_trunk_line.
  destruct (Regex.re_match _ _ _) as [[[g ep] rest]|] eqn:Hm;
    [|by intros [= <-]].
  destruct (Regex.group 1 g) as [interface|] eqn:H1; [|by intros [= <-]].
  destruct (Regex.group 2 g) as [vlans_str|]; [|by intros [= <-]].
  destruct (_parse_vlan_list limits (text (strip vlans_str))) as [vlans|e] eqn:Hv;
    [|done].
  simpl. intros [= <-]. apply map_Forall_insert_2; [|done].
  by eapply HP.
Qed.

Lemma parse_interfaces_trunk_values (P : string → list Z → Prop) limits
    output trunk_vlans :
  (∀ line g end_prev rest interface vlans_str vlans,
     Regex.re_match (Regex.mkFlags false false) trunk_line_pattern (strip line)
       = Some (g, end_prev, rest) →
     Regex.group 1 g = Some interface →
     _parse_vlan_list limits vlans_str = Returns vlans →
     P (text interface) vlans) →
  parse_interfaces_trunk limits output = Returns trunk_vlans →
  map_Forall P trunk_vlans.
Proof.
  intros HP. unfold parse_interfaces_trunk.
  destruct (Regex.search _ _ _) as [[[g ?] ?]|];
    [|intros [= <-]; apply map_Forall_empty].
  destruct (Regex.group 1 g) as [section|];
    [|intros [= <-]; apply map_Forall_empty].
  generalize (split "010" section). intros lines.
  assert (∀ (start : attempt (gmap string (list Z))) m',
    (∀ m, start = Returns m → map_Forall P m) →
    foldl (λ trunk_vlans line,
             and_then trunk_vlans (λ m, parse_trunk_line limits m line))
      start lines = Returns m' →
    map_Forall P m') as Hfold.
  { induction lines as [|line lines IH]; intros start m' Hstart; simpl.
    - intros ->. by apply Hstart.
    - apply IH. intros m Hm. destruct start as [m0|e]; [|done]. simpl in Hm.
      eapply (parse_trunk_line_values P); [|by apply Hstart|exact Hm].
      intros. by eapply HP. }
  apply Hfold. intros m [= <-]. apply map_Forall_empty.
Qed.

Lemma parse_interfaces_trunk_nonneg limits output trunk_vlans :
  parse_interfaces_trunk limits output = Returns trunk_vlans →
  map_Forall (λ _ vlans, Forall (λ v : Z, 0 ≤ v) vlans) trunk_vlans.
Proof.
  apply (parse_interfaces_trunk_values (λ _ vlans, Forall (λ v : Z, 0 ≤ v) vlans)).
  intros line g ep rest interface vlans_str vlans _ _ Hv.
  apply Forall_forall. intros v Hin. by eapply parse_vlan_list_nonneg.
Qed.

(** C6, as stated, fails: the parsers keep whatever number the text holds;
    0 and 4095 come out of a trunk-allowed list and of [show vlan brief]
    rows alike. *)
Lemma vlan_ids_outside_1_4094 :
  _parse_vlan_list cpython64 "0,4095" = Returns [0; 4095]
  ∧ (∃ trunk_vlans,
       parse_interfaces_trunk cpython64 Samples.trunk_output = Returns trunk_vlans
       ∧ trunk_vlans !! "Gi1/0/1"%string = Some [0; 4095])
  ∧ (λ vlans : list Vlan, vlan_id <$> vlans) <$> parse_vlans Samples.vlan_output
      = Some [0; 4095].
Proof.
  split_and!; [by vm_compute | | by vm_compute].
  eexists. split; by vm_compute.
Qed.

(** C6, amended: every VLAN id in a list returned by [_parse_vlan_list],
    in a value of the dictionary returned by [parse_interfaces_trunk], and
    in a record returned by [parse_vlans] (which returns for every input)
    is a non-negative integer; no parser bounds the ids to 1..4094. *)
Theorem vlan_ids_nonnegative :
  (∀ limits vlan_str vlans v,
     _parse_vlan_list limits vlan_str = Returns vlans → v ∈ vlans → 0 ≤ v)
  ∧ (∀ limits output trunk_vlans interface vlans v,
       parse_interfaces_trunk limits output = Returns trunk_vlans →
       trunk_vlans !! interface = Some vlans →
       v ∈ vlans → 0 ≤ v)
  ∧ (∀ output, ∃ vlans,
       parse_vlans output = Some vlans
       ∧ ∀ vlan, vlan ∈ vlans → 0 ≤ vlan_id vlan).
Proof.
  split_and!.
  - apply parse_vlan_list_nonneg.
  - intros limits output trunk_vlans interface vlans v Hret Hlook Hv.
    pose proof (parse_interfaces_trunk_nonneg limits output trunk_vlans Hret
                  interface vlans Hlook) as Hall.
    simpl in Hall. rewrite Forall_forall in Hall. by apply Hall.
  - apply parse_vlans_nonneg.
Qed.

End ParsersFacts.

(** ** The crawl engine: invariants *)

Module EngineFacts.
Import Engine.

(** *** The inner loop *)

Lemma submit_loop_spec self queue discovered futs subm :
  ∃ new rest,
    submit_loop self queue discovered futs subm
      = (rest, list_to_set (hosts new) ∪ discovered, futs ++ new, subm ++ new)
    ∧ (rest `suffix_of` queue)
    ∧ new ⊆ queue
    ∧ NoDup (hosts new)
    ∧ (∀ it, it ∈ new → hostname it.1 ∉ discovered ∧ it.2 < max_depth self).
Proof.
  revert discovered futs subm.
  induction queue as [|[dc d] queue IH]; intros discovered futs subm; simpl.
  { exists [], []. rewrite !app_nil_r. split_and!; try done.
    - f_equal. f_equal. f_equal. set_solver.
    - constructor.
    - intros it Hit. by apply elem_of_nil in Hit. }
  case_bool_decide as Hslot; last first.
  { exists [], ((dc, d) :: queue). rewrite !app_nil_r. split_and!; try done.
    - do 3 f_equal. set_solver.
    - set_solver.
    - constructor.
    - intros it Hit. by apply elem_of_nil in Hit. }
  case_bool_decide as Hseen.
  { destruct (IH discovered futs subm) as (new & rest & -> & Hsuf & Hsub & Hnd & Hnew).
    exists new, rest. split_and!; try done.
    - by apply suffix_cons_r.
    - set_solver. }
  case_bool_decide as Hdeep.
  { destruct (IH discovered futs subm) as (new & rest & -> & Hsuf & Hsub & Hnd & Hnew).
    exists new, rest. split_and!; try done.
    - by apply suffix_cons_r.
    - set_solver. }
  destruct (IH ({[hostname dc]} ∪ discovered) (futs ++ [(dc, d)]) (subm ++ [(dc, d)]))
    as (new & rest & -> & Hsuf & Hsub & Hnd & Hnew).
  exists ((dc, d) :: new), rest. rewrite <- !app_assoc. simpl. split_and!.
  - do 3 f_equal. set_solver.
  - by apply suffix_cons_r.
  - set_solver.
  - constructor; [|done]. intros Hin.
    apply list_elem_of_fmap in Hin as (it & Hh & Hit).
    destruct (Hnew it Hit) as [Hnot _]. apply Hnot. rewrite <- Hh. set_solver.
  - intros it Hit. apply elem_of_cons in Hit as [->|Hit]; simpl.
    + split; [done | lia].
    + destruct (Hnew it Hit) as [Hnot Hd]. split; [set_solver | done].
Qed.

(** *** Queuing the neighbours of a collected device *)

Lemma queue_neighbors_spec self discovered depth nbrs queue enq :
  ∃ new,
    queue_neighbors self discovered depth nbrs queue enq
      = (queue ++ new, enq ++ new)
    ∧ ∀ it, it ∈ new →
        it.2 = depth + 1
        ∧ ∃ nb, nb ∈ nbrs ∧ passes_filters discovered nb (hostname it.1).
Proof.
  revert queue enq.
  induction nbrs as [|nb nbrs IH]; intros queue enq; simpl.
  { exists []. rewrite !app_nil_r. split; [done|]. intros it Hit.
    by apply elem_of_nil in Hit. }
  assert (Hskip : ∀ q e, ∃ new,
    queue_neighbors self discovered depth nbrs q e = (q ++ new, e ++ new)
    ∧ ∀ it, it ∈ new → it.2 = depth + 1
        ∧ ∃ nb', nb' ∈ nb :: nbrs ∧ passes_filters discovered nb' (hostname it.1)).
  { intros q e. destruct (IH q e) as (new & -> & Hnew). exists new.
    split; [done|]. intros it Hit. destruct (Hnew it Hit) as (? & nb' & ? & ?).
    split; [done|]. exists nb'. split; [by right | done]. }
  assert (Hstop : ∃ new, (queue, enq) = (queue ++ new, enq ++ new)
    ∧ ∀ it, it ∈ new → it.2 = depth + 1
        ∧ ∃ nb', nb' ∈ nb :: nbrs ∧ passes_filters discovered nb' (hostname it.1)).
  { exists []. rewrite !app_nil_r. split; [done|]. intros it Hit.
    by apply elem_of_nil in Hit. }
  destruct (remote_device nb) as [h|] eqn:Hdev; [|apply Hskip].
  case_bool_decide as Hempty; [apply Hskip|].
  case_bool_decide as Hseen; [apply Hskip|].
  destruct (capabilities nb) as [| |words] eqn:Hcaps; simpl.
  - apply Hskip.
  - apply Hstop.
  - destruct (is_switch_or_router words) eqn:Hsw; [|apply Hskip].
    destruct (seed_devices self) as [|seed0 seeds]; [apply Hstop|].
    match goal with |- context [queue ++ [?x]] => set (it0 := x) end.
    destruct (IH (queue ++ [it0]) (enq ++ [it0])) as (new & -> & Hnew).
    exists (it0 :: new). rewrite <- !app_assoc. split; [done|].
    intros it Hit. apply elem_of_cons in Hit as [->|Hit].
    + split; [done|]. exists nb. split; [by left|].
      unfold passes_filters. rewrite Hcaps. by simpl.
    + destruct (Hnew it Hit) as (? & nb' & ? & ?).
      split; [done|]. exists nb'. split; [by right | done].
Qed.

Lemma process_discovered_device_spec self st device_info depth :
  ∃ new,
    discovery_queue (_process_discovered_device self st device_info depth)
      = discovery_queue st ++ new
    ∧ enqueued (_process_discovered_device self st device_info depth)
      = enqueued st ++ new
    ∧ (new ≠ [] → depth < max_depth self - 1)
    ∧ ∀ it, it ∈ new →
        it.2 = depth + 1
        ∧ ∃ nb, nb ∈ neighbors device_info
            ∧ passes_filters (discovered_devices st) nb (hostname it.1).
Proof.
  unfold _process_discovered_device.
  case_bool_decide as Hd.
  - destruct (queue_neighbors_spec self (discovered_devices st) depth
      (neighbors device_info) (discovery_queue st) (enqueued st))
      as (new & -> & Hnew).
    exists new. by simpl.
  - exists []. simpl. rewrite !app_nil_r. split_and!; try done.
    intros it Hit. by apply elem_of_nil in Hit.
Qed.

Lemma process_discovered_device_frame self st device_info depth :
  let st' := _process_discovered_device self st device_info depth in
  discovered_devices st' = discovered_devices st
  ∧ futures st' = futures st
  ∧ submitted st' = submitted st.
Proof.
  unfold _process_discovered_device.
  by destruct (if bool_decide (depth < max_depth self - 1) then _ else _).
Qed.

(** *** The crawl invariant *)

Lemma seed_items_depth self it : it ∈ seed_items self → it.2 = 0.
Proof.
  unfold seed_items. intros Hit.
  apply list_elem_of_fmap in Hit as (seed & -> & _). done.
Qed.

Lemma enqueued_depth_nonneg self st it :
  crawl_inv self st → it ∈ enqueued st → 0 ≤ it.2.
Proof.
  intros Hinv Hit. destruct (inv_enqueued _ _ Hinv) as (nbrs & Heq & Hn).
  rewrite Heq in Hit. apply elem_of_app in Hit as [Hit|Hit].
  - apply seed_items_depth in Hit. lia.
  - apply Hn in Hit. lia.
Qed.

Lemma start_discovery_inv self : crawl_inv self (start_discovery self).
Proof.
  split; simpl; try done.
  - intros it Hit. by apply elem_of_nil in Hit.
  - exists []. rewrite app_nil_r. split; [done|]. intros it Hit.
    by apply elem_of_nil in Hit.
  - constructor.
Qed.

Lemma submit_tasks_inv self st :
  crawl_inv self st → crawl_inv self (submit_tasks self st).
Proof.
  intros [Hq Hf Hs He Hnd Hdisc]. unfold submit_tasks.
  destruct (submit_loop_spec self (discovery_queue st) (discovered_devices st)
    (futures st) (submitted st)) as (new & rest & -> & Hsuf & Hsub & Hndn & Hnew).
  split; simpl.
  - destruct Hsuf as [pre Hpre]. intros it Hit. apply Hq. rewrite Hpre.
    apply elem_of_app. by right.
  - intros it Hit. apply elem_of_app in Hit as [Hit|Hit]; apply elem_of_app;
      [left; by apply Hf | by right].
  - intros it Hit. apply elem_of_app in Hit as [Hit|Hit]; [by apply Hs|].
    split; [apply Hq, Hsub, Hit | apply (Hnew it Hit)].
  - done.
  - unfold hosts. rewrite fmap_app. apply NoDup_app. split_and!; try done.
    intros h Hh Hh'. apply list_elem_of_fmap in Hh' as (it & -> & Hit).
    destruct (Hnew it Hit) as [Hnot _]. apply Hnot. rewrite Hdisc.
    by apply elem_of_list_to_set.
  - unfold hosts. rewrite fmap_app, list_to_set_app_L, Hdisc. set_solver.
Qed.

Lemma set_futures_inv self st futs :
  crawl_inv self st → futs ⊆ futures st → crawl_inv self (set_futures st futs).
Proof.
  intros [Hq Hf Hs He Hnd Hdisc] Hsub. split; simpl; try done.
  intros it Hit. by apply Hf, Hsub.
Qed.

Lemma record_error_inv self st device message :
  crawl_inv self st → crawl_inv self (record_error st device message).
Proof. intros [Hq Hf Hs He Hnd Hdisc]. by split. Qed.

Lemma process_discovered_device_inv self st device_info depth :
  crawl_inv self st → 0 ≤ depth →
  crawl_inv self (_process_discovered_device self st device_info depth).
Proof.
  intros Hinv Hdepth.
  destruct (process_discovered_device_spec self st device_info depth)
    as (new & Hqueue & Henq & Hguard & Hnew).
  destruct (process_discovered_device_frame self st device_info depth)
    as (Hd' & Hf' & Hs').
  destruct Hinv as [Hq Hf Hs He Hnd Hdisc].
  split; rewrite ?Hqueue, ?Henq, ?Hd', ?Hf', ?Hs'; try done.
  - intros it Hit. apply elem_of_app in Hit as [Hit|Hit]; apply elem_of_app;
      [left; by apply Hq | by right].
  - intros it Hit. destruct (Hs it Hit). split; [|done].
    apply elem_of_app. by left.
  - destruct He as (nbrs & -> & Hn). exists (nbrs ++ new).
    rewrite app_assoc. split; [done|].
    intros it Hit. apply elem_of_app in Hit as [Hit|Hit]; [by apply Hn|].
    assert (new ≠ []) as Hne by (intros ->; by apply elem_of_nil in Hit).
    specialize (Hguard Hne). destruct (Hnew it Hit) as [-> _]. lia.
Qed.

Lemma loop_iteration_inv self st i o st' :
  crawl_inv self st → loop_iteration self st i o = Some st' → crawl_inv self st'.
Proof.
  intros Hinv. unfold loop_iteration.
  case_bool_decide; [|done].
  pose proof (submit_tasks_inv self st Hinv) as Hinv1.
  set (st1 := submit_tasks self st) in *.
  assert (Hgo : match futures st1 with
    | [] => Some st1
    | _ => task ← futures st1 !! i;
           Some (handle_result self (set_futures st1 (delete i (futures st1))) task o)
    end = Some st' → crawl_inv self st').
  { destruct (futures st1) as [|f fs] eqn:Hfs; [by intros [= <-]|].
    rewrite <- Hfs. destruct (futures st1 !! i) as [task|] eqn:Hi; [|done].
    simpl. intros [= <-].
    assert (crawl_inv self (set_futures st1 (delete i (futures st1)))) as Hinv2.
    { apply set_futures_inv; [done|]. apply list_subseteq_delete. }
    destruct o as [device_info| |message]; simpl.
    - apply process_discovered_device_inv; [done|].
      apply (enqueued_depth_nonneg self st1); [done|].
      apply (inv_submitted _ _ Hinv1), (inv_futures _ _ Hinv1).
      by apply list_elem_of_lookup_2 in Hi.
    - by apply record_error_inv.
    - by apply record_error_inv. }
  destruct (discovery_queue st), (futures st); try done.
Qed.

Lemma reachable_inv self st : reachable self st → crawl_inv self st.
Proof.
  induction 1 as [|st i o st' _ IH Hstep].
  - apply start_discovery_inv.
  - by apply (loop_iteration_inv self st i o).
Qed.

Lemma run_reachable self st script st' :
  reachable self st → run self st script = Some st' → reachable self st'.
Proof.
  revert st. induction script as [|[i o] script IH]; intros st Hst; simpl.
  - by intros [= <-].
  - destruct (loop_iteration self st i o) as [st1|] eqn:Hstep; [|done].
    simpl. apply IH. by apply (reach_turn self st i o).
Qed.

Lemma crawl_reachable self script : reachable self (crawl self script).
Proof.
  unfold crawl.
  destruct (run self (start_discovery self) script) as [st|] eqn:Hrun; simpl.
  - apply (run_reachable self (start_discovery self) script); [|done].
    apply reach_start.
  - apply reach_start.
Qed.

(** *** Depth limit *)

(** C1, as stated, fails: with [max_depth = 0] the seed is put on the
    frontier at depth 0, so an enqueued item has a depth that is not below
    [max_depth]. *)
Lemma seed_enqueued_at_max_depth_zero :
  let st := start_discovery Scenarios.depth0 in
  reachable Scenarios.depth0 st
  ∧ max_depth Scenarios.depth0 = 0
  ∧ (Scenarios.sw1, 0) ∈ discovery_queue st
  ∧ ¬ (∀ it, it ∈ enqueued st → it.2 < max_depth Scenarios.depth0).
Proof.
  split_and!.
  - apply reach_start.
  - done.
  - by left.
  - intros Hall. specialize (Hall (Scenarios.sw1, 0)).
    assert ((Scenarios.sw1, 0).2 < max_depth Scenarios.depth0) as Hlt
      by (apply Hall; by left).
    by vm_compute in Hlt.
Qed.

(** C1, amended: seeds enter the frontier at depth 0; a dequeued device is
    submitted for collection only at a depth below [max_depth]; the
    neighbours of a device collected at depth [d] are put on the frontier
    only if [d < max_depth - 1], and then at depth [d + 1]; hence every
    item ever enqueued is a seed at depth 0 or a neighbour at a depth
    strictly between 0 and [max_depth], and when [max_depth >= 1] no item
    at all has depth [>= max_depth]; with [max_depth = 1] nothing but the
    seeds is ever enqueued, submitted or marked visited. *)
Theorem depth_limit (self : Settings) (st : State) :
  reachable self st →
  discovery_queue (start_discovery self)
    = (λ seed, (seed, 0)) <$> seed_devices self
  ∧ (∀ it, it ∈ submitted st → it.2 < max_depth self)
  ∧ (∀ device_info d, ∃ new,
       discovery_queue (_process_discovered_device self st device_info d)
         = discovery_queue st ++ new
       ∧ enqueued (_process_discovered_device self st device_info d)
         = enqueued st ++ new
       ∧ (new ≠ [] → d < max_depth self - 1)
       ∧ ∀ it, it ∈ new → it.2 = d + 1)
  ∧ (∃ nbrs, enqueued st = seed_items self ++ nbrs
       ∧ ∀ it, it ∈ nbrs → 0 < it.2 < max_depth self)
  ∧ (1 ≤ max_depth self → ∀ it, it ∈ enqueued st → it.2 < max_depth self)
  ∧ (max_depth self = 1 →
       enqueued st = seed_items self
       ∧ submitted st ⊆ seed_items self
       ∧ ∀ h, h ∈ discovered_devices st → h ∈ hostname <$> seed_devices self).
Proof.
  intros Hreach. pose proof (reachable_inv self st Hreach) as Hinv.
  destruct (inv_enqueued _ _ Hinv) as (nbrs & Henq & Hnbrs).
  split_and!.
  - done.
  - intros it Hit. apply (inv_submitted _ _ Hinv it Hit).
  - intros device_info d.
    destruct (process_discovered_device_spec self st device_info d)
      as (new & Hq & He & Hguard & Hnew).
    exists new. split_and!; try done. intros it Hit. apply (Hnew it Hit).
  - by exists nbrs.
  - intros HN it Hit. rewrite Henq in Hit.
    apply elem_of_app in Hit as [Hit|Hit].
    + apply seed_items_depth in Hit. lia.
    + apply Hnbrs in Hit. lia.
  - intros HN.
    assert (nbrs = []) as ->.
    { destruct nbrs as [|it nbrs']; [done|].
      specialize (Hnbrs it (list_elem_of_here _ _)). lia. }
    rewrite app_nil_r in Henq. split_and!.
    + done.
    + intros it Hit. rewrite <- Henq. apply (inv_submitted _ _ Hinv it Hit).
    + intros h Hh. rewrite (inv_discovered _ _ Hinv) in Hh.
      apply elem_of_list_to_set in Hh. unfold hosts in Hh.
      apply list_elem_of_fmap in Hh as (it & -> & Hit).
      apply (inv_submitted _ _ Hinv) in Hit as [Hit _].
      rewrite Henq in Hit. unfold seed_items in Hit.
      apply list_elem_of_fmap in Hit as (seed & -> & Hseed). simpl.
      apply list_elem_of_fmap. by exists seed.
Qed.

Lemma depth_limit_witness :
  reachable Scenarios.depth1 (crawl Scenarios.depth1 Scenarios.depth1_script)
  ∧ enqueued (crawl Scenarios.depth1 Scenarios.depth1_script)
      = seed_items Scenarios.depth1.
Proof.
  assert (reachable Scenarios.depth1
            (crawl Scenarios.depth1 Scenarios.depth1_script)) as Hreach
    by apply crawl_reachable.
  split; [exact Hreach|].
  destruct (depth_limit _ _ Hreach) as (_ & _ & _ & _ & _ & Hone).
  apply Hone. reflexivity.
Defined.

(** *** Cycle avoidance *)

(** C2, as stated, fails: [sw1] and [sw2] are collected one after the
    other and both report [sw3], which is not yet marked; it is put on the
    frontier twice and both copies wait there together. *)
Lemma same_neighbour_enqueued_twice :
  let st := crawl Scenarios.shared Scenarios.shared_script in
  run Scenarios.shared (start_discovery Scenarios.shared) Scenarios.shared_script
    = Some st
  ∧ reachable Scenarios.shared st
  ∧ hosts (discovery_queue st) = ["sw3"; "sw3"]%string
  ∧ "sw3"%string ∉ discovered_devices st
  ∧ ¬ NoDup (hosts (enqueued st)).
Proof.
  split_and!.
  - by vm_compute.
  - apply crawl_reachable.
  - by vm_compute.
  - apply (bool_decide_eq_false_1 _). by vm_compute.
  - apply (bool_decide_eq_false_1 _). by vm_compute.
Qed.

(** C2, amended: membership in [discovered_devices] is checked, but not
    set, when a neighbour is put on the frontier; it is checked and set
    when an item is taken off the frontier and submitted; consequently each
    hostname is submitted for collection at most once per crawl, and the
    visited set is exactly the set of submitted hostnames. *)
Theorem cycle_avoidance (self : Settings) (st : State) :
  reachable self st →
  (∀ device_info d, ∃ new,
     enqueued (_process_discovered_device self st device_info d)
       = enqueued st ++ new
     ∧ (∀ it, it ∈ new → hostname it.1 ∉ discovered_devices st)
     ∧ discovered_devices (_process_discovered_device self st device_info d)
       = discovered_devices st)
  ∧ (∃ new,
       submitted (submit_tasks self st) = submitted st ++ new
       ∧ (∀ it, it ∈ new → hostname it.1 ∉ discovered_devices st)
       ∧ discovered_devices (submit_tasks self st)
         = list_to_set (hosts new) ∪ discovered_devices st)
  ∧ NoDup (hosts (submitted st))
  ∧ discovered_devices st = list_to_set (hosts (submitted st)).
Proof.
  intros Hreach. pose proof (reachable_inv self st Hreach) as Hinv.
  split_and!.
  - intros device_info d.
    destruct (process_discovered_device_spec self st device_info d)
      as (new & _ & He & _ & Hnew).
    destruct (process_discovered_device_frame self st device_info d)
      as (Hd & _ & _).
    exists new. split_and!; try done.
    intros it Hit. destruct (Hnew it Hit) as (_ & nb & _ & _ & _ & Hfresh & _).
    done.
  - unfold submit_tasks.
    destruct (submit_loop_spec self (discovery_queue st) (discovered_devices st)
      (futures st) (submitted st)) as (new & rest & -> & _ & _ & _ & Hnew).
    exists new. simpl. split_and!; try done.
    intros it Hit. apply (Hnew it Hit).
  - apply (inv_nodup _ _ Hinv).
  - apply (inv_discovered _ _ Hinv).
Qed.

Lemma cycle_avoidance_witness :
  reachable Scenarios.shared (crawl Scenarios.shared Scenarios.shared_script)
  ∧ NoDup (hosts (submitted (crawl Scenarios.shared Scenarios.shared_script))).
Proof.
  assert (reachable Scenarios.shared
            (crawl Scenarios.shared Scenarios.shared_script)) as Hreach
    by apply crawl_reachable.
  split; [exact Hreach|].
  destruct (cycle_avoidance _ _ Hreach) as (_ & _ & Hnd & _). exact Hnd.
Defined.

(** *** Capability filter *)

(** C5, as stated, fails: a neighbour whose capabilities are [SWITCH] and
    [ROUTER] has a fresh hostname and is reported within the depth limit,
    yet it is not put on the frontier. *)
Lemma capitals_not_enqueued :
  let st := crawl Scenarios.capitals Scenarios.capitals_script in
  run Scenarios.capitals (start_discovery Scenarios.capitals)
    Scenarios.capitals_script = Some st
  ∧ Forall names_switch_or_router ["SWITCH"; "ROUTER"]%string
  ∧ info_hostname <$> device_data st !! "sw1"%string = Some "sw1"%string
  ∧ enqueued st = seed_items Scenarios.capitals
  ∧ discovery_queue st = [].
Proof.
  split_and!.
  - by vm_compute.
  - apply Forall_cons. split; [left; by vm_compute|].
    apply Forall_cons. split; [right; by vm_compute|]. constructor.
  - by vm_compute.
  - by vm_compute.
  - by vm_compute.
Qed.

(** One turn of the loop over the neighbours: the record raises, or is
    passed over, or is queued as its own entry. *)
Lemma queue_neighbors_step self discovered depth nb nbrs queue enq :
  (raises_at self discovered nb
   ∧ queue_neighbors self discovered depth (nb :: nbrs) queue enq = (queue, enq))
  ∨ (enqueueable discovered nb = false
     ∧ queue_neighbors self discovered depth (nb :: nbrs) queue enq
       = queue_neighbors self discovered depth nbrs queue enq)
  ∨ (enqueueable discovered nb = true
     ∧ queue_neighbors self discovered depth (nb :: nbrs) queue enq
       = queue_neighbors self discovered depth nbrs
           (queue ++ [neighbor_item self depth nb])
           (enq ++ [neighbor_item self depth nb])).
Proof.
  unfold enqueueable, raises_at, neighbor_item. simpl.
  destruct (remote_device nb) as [h|] eqn:Hdev; [|by right; left].
  case_bool_decide as Hempty.
  { right; left. by rewrite bool_decide_eq_false_2 by naive_solver. }
  case_bool_decide as Hseen.
  { right; left. rewrite (bool_decide_eq_false_2 (h ∉ discovered)) by naive_solver.
    by rewrite andb_false_r. }
  rewrite !bool_decide_eq_true_2 by done. simpl.
  destruct (capabilities nb) as [| |words] eqn:Hcaps; simpl.
  - by right; left.
  - left. split; [|done]. exists h. split_and!; try done. by left.
  - destruct (is_switch_or_router words) eqn:Hsw; [|by right; left].
    destruct (seed_devices self) as [|seed0 seeds] eqn:Hseeds.
    + left. split; [|done]. exists h. split_and!; try done. by right.
    + by right; right.
Qed.

(** The loop over the neighbours, record by record: the records up to the
    first one that raises are filtered, and each one that passes gives its
    own queue entry, in order. *)
Lemma queue_neighbors_exact self discovered depth nbrs : ∀ queue enq,
  ∃ done,
    done `prefix_of` nbrs
    ∧ (done = nbrs
       ∨ ∃ nb rest, nbrs = done ++ nb :: rest ∧ raises_at self discovered nb)
    ∧ queue_neighbors self discovered depth nbrs queue enq
      = (queue ++ (neighbor_item self depth
                     <$> List.filter (enqueueable discovered) done),
         enq ++ (neighbor_item self depth
                   <$> List.filter (enqueueable discovered) done)).
Proof.
  induction nbrs as [|nb nbrs IH]; intros queue enq.
  { exists []. simpl. rewrite !app_nil_r. split_and!; [done | by left | done]. }
  destruct (queue_neighbors_step self discovered depth nb nbrs queue enq)
    as [[Hraise ->]|[[Hno ->]|[Hyes ->]]].
  - exists []. split_and!.
    + apply prefix_nil.
    + right. by exists nb, nbrs.
    + simpl. by rewrite !app_nil_r.
  - destruct (IH queue enq) as (done & Hpre & Hend & ->).
    exists (nb :: done). split_and!.
    + by apply prefix_cons.
    + destruct Hend as [->|(nb' & rest & -> & Hraise)]; [by left|].
      right. by exists nb', rest.
    + simpl. by rewrite Hno.
  - destruct (IH (queue ++ [neighbor_item self depth nb])
                (enq ++ [neighbor_item self depth nb]))
      as (done & Hpre & Hend & ->).
    exists (nb :: done). split_and!.
    + by apply prefix_cons.
    + destruct Hend as [->|(nb' & rest & -> & Hraise)]; [by left|].
      right. by exists nb', rest.
    + simpl. rewrite Hyes. simpl. by rewrite <- !app_assoc.
Qed.

(** A record that passes holds one of the four spellings. *)
Lemma enqueueable_spelling discovered nb :
  enqueueable discovered nb = true →
  ∃ h cap,
    remote_device nb = Some h ∧ h ≠ ""%string ∧ h ∉ discovered
    ∧ cap ∈ caps_words (capabilities nb)
    ∧ cap ∈ ["Switch"; "Router"; "switch"; "router"]%string
    ∧ names_switch_or_router cap.
Proof.
  unfold enqueueable. destruct (remote_device nb) as [h|]; [|done].
  intros [[Hne Hfresh]%andb_true_iff Hsw]%andb_true_iff.
  apply bool_decide_eq_true in Hne, Hfresh.
  unfold is_switch_or_router in Hsw.
  apply existsb_exists in Hsw as (cap & Hcap & Hin).
  apply bool_decide_eq_true in Hin. apply list_elem_of_In in Hcap.
  exists h, cap. split_and!; try done.
  unfold names_switch_or_router.
  repeat (apply elem_of_cons in Hin as [->|Hin]);
    [left | right | left | right | by apply elem_of_nil in Hin]; by vm_compute.
Qed.

(** The test on one record, spelled out. *)
Lemma enqueueable_iff discovered nb :
  enqueueable discovered nb = true
  ↔ ∃ h cap,
      remote_device nb = Some h ∧ h ≠ ""%string ∧ h ∉ discovered
      ∧ cap ∈ caps_words (capabilities nb)
      ∧ cap ∈ ["Switch"; "Router"; "switch"; "router"]%string.
Proof.
  split.
  - intros (h & cap & ? & ? & ? & ? & ? & ?)%enqueueable_spelling.
    by exists h, cap.
  - intros (h & cap & Hdev & Hne & Hfresh & Hcap & Hin).
    unfold enqueueable. rewrite Hdev.
    rewrite !bool_decide_eq_true_2 by done. simpl.
    unfold is_switch_or_router. apply existsb_exists.
    exists cap. split; [by apply list_elem_of_In|].
    by apply bool_decide_eq_true.
Qed.

(** C5, amended: the records a collected device reports are taken in
    order, up to the first one at which an exception ends the loop; each of
    them is put on the frontier, as its own entry, exactly when it has a
    non-empty hostname not yet discovered and its capabilities list holds
    one of the four exact spellings [Switch], [Router], [switch],
    [router] (so, in particular, a word that reads switch or router when
    case is ignored); a record none of whose capability words reads switch
    or router, in any casing, is never put on the frontier. *)
Theorem capability_filter (self : Settings) (st : State)
    (device_info : DeviceInfo) (depth : Z) :
  ∃ done,
    done `prefix_of` neighbors device_info
    ∧ (done = neighbors device_info
       ∨ ∃ nb rest,
           neighbors device_info = done ++ nb :: rest
           ∧ raises_at self (discovered_devices st) nb)
    ∧ (let new :=
         if bool_decide (depth < max_depth self - 1)
         then neighbor_item self depth
                <$> List.filter (enqueueable (discovered_devices st)) done
         else [] in
       discovery_queue (_process_discovered_device self st device_info depth)
         = discovery_queue st ++ new
       ∧ enqueued (_process_discovered_device self st device_info depth)
         = enqueued st ++ new)
    ∧ (∀ nb, enqueueable (discovered_devices st) nb = true
         ↔ ∃ h cap,
             remote_device nb = Some h ∧ h ≠ ""%string
             ∧ h ∉ discovered_devices st
             ∧ cap ∈ caps_words (capabilities nb)
             ∧ cap ∈ ["Switch"; "Router"; "switch"; "router"]%string)
    ∧ (∀ nb, enqueueable (discovered_devices st) nb = true →
         remote_device nb = Some (hostname (neighbor_item self depth nb).1)
         ∧ ∃ cap,
             cap ∈ caps_words (capabilities nb)
             ∧ cap ∈ ["Switch"; "Router"; "switch"; "router"]%string
             ∧ names_switch_or_router cap)
    ∧ (∀ nb,
         (∀ cap, cap ∈ caps_words (capabilities nb) →
            ¬ names_switch_or_router cap) →
         enqueueable (discovered_devices st) nb = false).
Proof.
  assert (Hpass : ∀ nb, enqueueable (discovered_devices st) nb = true →
    remote_device nb = Some (hostname (neighbor_item self depth nb).1)
    ∧ ∃ cap, cap ∈ caps_words (capabilities nb)
        ∧ cap ∈ ["Switch"; "Router"; "switch"; "router"]%string
        ∧ names_switch_or_router cap).
  { intros nb (h & cap & Hdev & _ & _ & Hcap & Hin & Hname)%enqueueable_spelling.
    split; [|by exists cap]. simpl. by rewrite Hdev. }
  assert (Hnone : ∀ nb,
    (∀ cap, cap ∈ caps_words (capabilities nb) → ¬ names_switch_or_router cap) →
    enqueueable (discovered_devices st) nb = false).
  { intros nb Hno. destruct (enqueueable (discovered_devices st) nb) eqn:He; [|done].
    destruct (Hpass nb He) as (_ & cap & Hcap & _ & Hname).
    by destruct (Hno cap Hcap). }
  unfold _process_discovered_device.
  case_bool_decide as Hdepth.
  - destruct (queue_neighbors_exact self (discovered_devices st) depth
      (neighbors device_info) (discovery_queue st) (enqueued st))
      as (done & Hpre & Hend & ->).
    exists done. split_and!; try done. intros nb. apply enqueueable_iff.
  - exists (neighbors device_info). simpl. rewrite !app_nil_r.
    split_and!; try done; [by left|]. intros nb. apply enqueueable_iff.
Qed.

End EngineFacts.
